(** * DoubleTick customers: the hybrid virtual record store

    A shallow embedding of [src/utils/dataGenerator.js] (the record
    generator), [src/utils/indexedDB.js] (the persisted store and the query
    engine [getCustomers]) and the navigation handlers of
    [src/components/CustomerTable.jsx], followed by the properties the
    specification states about them.

    Conventions of the embedding.
    - JavaScript numbers that the program uses as integers (ids, offsets,
      limits, row numbers, scores, epoch milliseconds) are [Z]; the model is
      exact for the safe-integer range of a double.
    - JavaScript strings are [string]; [toLowerCase] acts on the ASCII
      letters, which is all the generated data contains.  On a string of
      ASCII characters this is the case mapping of the language; a property
      that needs the mapping to act character by character is stated for
      ASCII text only.
    - [Date.now()] is an explicit parameter [now] (epoch milliseconds).
    - An ISO-8601 timestamp string is represented by the instant it denotes,
      wrapped in [isostring]: [toISOString] and [new Date(s).getTime()] are
      mutually inverse, and the text of the timestamp is never inspected by
      the program.
    - The object store is the list of its records in cursor order, that is in
      ascending primary key.
    - [null] array cells are [None]; a callback that throws (so that the
      promise of [getCustomers] never resolves) is [None] in the error
      monad [M]. *)

From Stdlib Require Import ZArith List Bool Lia Permutation Sorted.
From Stdlib Require Import RelationClasses OrderedTypeEx.
From Stdlib Require Import Ascii String DecimalString DecimalPos DecimalZ.
From Stdlib Require Import QArith Qround Qminmax.
Import ListNotations.

Open Scope string_scope.
Open Scope Z_scope.

(** ** JavaScript primitives used by the program *)

Module Js.

(** [String(n)] for an integer [n]. *)
Definition String_of (n : Z) : string :=
  NilEmpty.string_of_int (Z.to_int n).

Fixpoint repeat_char (c : ascii) (n : nat) : string :=
  match n with
  | O => EmptyString
  | S n' => String c (repeat_char c n')
  end.

(** [s.padStart(n, c)] for a one-character filler. *)
Definition padStart (n : nat) (c : ascii) (s : string) : string :=
  repeat_char c (n - String.length s) ++ s.

Definition is_upper (c : ascii) : bool :=
  let n := nat_of_ascii c in (65 <=? n)%nat && (n <=? 90)%nat.

Definition is_lower (c : ascii) : bool :=
  let n := nat_of_ascii c in (97 <=? n)%nat && (n <=? 122)%nat.

Definition is_digit (c : ascii) : bool :=
  let n := nat_of_ascii c in (48 <=? n)%nat && (n <=? 57)%nat.

Definition lower_char (c : ascii) : ascii :=
  if is_upper c then ascii_of_nat (nat_of_ascii c + 32) else c.

(** [s.toLowerCase()] on ASCII text: [A-Z] to [a-z], every other character
    kept. *)
Fixpoint toLowerCase (s : string) : string :=
  match s with
  | EmptyString => EmptyString
  | String c s' => String (lower_char c) (toLowerCase s')
  end.

(** [s.includes(t)]: [t] occurs in [s] as a contiguous substring. *)
Fixpoint includes (s t : string) : bool :=
  if String.prefix t s then true
  else match s with
       | EmptyString => false
       | String _ s' => includes s' t
       end.

(** [a % b] on integers: the remainder takes the sign of the dividend. *)
Definition rem (a b : Z) : Z := Z.rem a b.

(** [Math.floor(a / b)] for integers [a] and [b > 0]. *)
Definition floor_div (a b : Z) : Z := a / b.

(** [table[i]]; an index outside the table reads [undefined], which a
    template literal prints as the text below. *)
Definition index (table : list string) (i : Z) : string :=
  if i <? 0 then "undefined" else nth (Z.to_nat i) table "undefined".

Definition len {A : Type} (l : list A) : Z := Z.of_nat (List.length l).

(** The integers [lo, lo+1, ..., hi-1] visited by
    [for (let i = lo; i < hi; i++)]. *)
Definition zrange (lo hi : Z) : list Z :=
  map (fun k => lo + Z.of_nat k) (seq 0 (Z.to_nat (hi - lo))).

(** [a.slice(start, end)], with the negative-index rule of the language. *)
Definition slice {A : Type} (a : list A) (start end_ : Z) : list A :=
  let n := len a in
  let from := if start <? 0 then Z.max (n + start) 0 else Z.min start n in
  let to := if end_ <? 0 then Z.max (n + end_) 0 else Z.min end_ n in
  firstn (Z.to_nat (to - from)) (skipn (Z.to_nat from) a).

(** An ISO-8601 timestamp, represented by its instant. *)
Inductive isostring : Type := ISOString (ms : Z).

(** [new Date(ms).toISOString()] *)
Definition toISOString (ms : Z) : isostring := ISOString ms.

(** [new Date(s).getTime()] *)
Definition getTime (s : isostring) : Z := let 'ISOString ms := s in ms.

End Js.

(** ** src/utils/dataGenerator.js *)

Definition firstNames : list string :=
  [ "James"; "Mary"; "John"; "Patricia"; "Robert"; "Jennifer"; "Michael"; "Linda";
    "William"; "Barbara"; "David"; "Elizabeth"; "Richard"; "Susan"; "Joseph"; "Jessica";
    "Thomas"; "Sarah"; "Charles"; "Karen"; "Christopher"; "Nancy"; "Daniel"; "Lisa";
    "Matthew"; "Betty"; "Anthony"; "Margaret"; "Mark"; "Sandra"; "Donald"; "Ashley";
    "Steven"; "Kimberly"; "Paul"; "Emily"; "Andrew"; "Donna"; "Joshua"; "Michelle";
    "Kevin"; "Carol"; "Brian"; "Amanda"; "George"; "Melissa"; "Edward"; "Deborah";
    "Ronald"; "Stephanie"; "Timothy"; "Rebecca"; "Jason"; "Sharon"; "Jeffrey"; "Laura";
    "Ryan"; "Cynthia"; "Jacob"; "Kathleen"; "Gary"; "Amy"; "Nicholas"; "Angela" ].

Definition lastNames : list string :=
  [ "Smith"; "Johnson"; "Williams"; "Brown"; "Jones"; "Garcia"; "Miller"; "Davis";
    "Rodriguez"; "Martinez"; "Hernandez"; "Lopez"; "Gonzalez"; "Wilson"; "Anderson";
    "Thomas"; "Taylor"; "Moore"; "Jackson"; "Martin"; "Lee"; "Perez"; "Thompson";
    "White"; "Harris"; "Sanchez"; "Clark"; "Ramirez"; "Lewis"; "Robinson"; "Walker";
    "Young"; "Allen"; "King"; "Wright"; "Scott"; "Torres"; "Nguyen"; "Hill"; "Flores";
    "Green"; "Adams"; "Nelson"; "Baker"; "Hall"; "Rivera"; "Campbell"; "Mitchell";
    "Carter"; "Roberts"; "Gomez"; "Phillips"; "Evans"; "Turner"; "Diaz"; "Parker" ].

Definition domains : list string :=
  [ "gmail.com"; "yahoo.com"; "outlook.com"; "hotmail.com";
    "company.com"; "icloud.com"; "protonmail.com"; "mail.com" ].

Definition agents : list string :=
  [ "Karthey Mishra"; "Agent Smith"; "Agent Jones"; "Agent Brown";
    "Agent Taylor"; "Agent Wilson"; "Agent Anderson"; "Agent Thomas" ].

(** The customer object. *)
Record customer : Type := Customer {
  id : Z;
  name : string;
  phone : string;
  email : string;
  score : Z;
  lastMessageAt : Js.isostring;
  addedBy : string;
  avatar : string
}.

Definition avatarOf (id : Z) : string :=
  "https://api.dicebear.com/7.x/avataaars/svg?seed=" ++ Js.String_of id.

(** [generateCustomer(id)], with the clock reading [now].  Ids are 1-based;
    for [id >= 0] every table index is in range. *)
Definition generateCustomer (now : Z) (id : Z) : customer :=
  let firstName := Js.index firstNames (Js.rem id (Js.len firstNames)) in
  let lastNameIndex :=
    Js.rem (Js.floor_div id (Js.len firstNames)) (Js.len lastNames) in
  let lastName := Js.index lastNames lastNameIndex in
  let name := firstName ++ " " ++ lastName in
  let emailPrefix := Js.toLowerCase firstName ++ "." ++ Js.toLowerCase lastName in
  let domain := Js.index domains (Js.rem id (Js.len domains)) in
  let email := emailPrefix ++ Js.String_of id ++ "@" ++ domain in
  let phone := "+1" ++ Js.padStart 10 "0" (Js.String_of id) in
  let score := Js.rem (id * 7) 100 in
  let addedBy := Js.index agents (Js.rem id (Js.len agents)) in
  let daysAgo := Js.rem id 365 in
  let lastMessageAt := now - daysAgo * 24 * 60 * 60 * 1000 in
  {| id := id;
     name := name;
     phone := phone;
     email := email;
     score := score;
     lastMessageAt := Js.toISOString lastMessageAt;
     addedBy := addedBy;
     avatar := avatarOf id |}.

(** [generateCustomers(count)]: ids [1 .. count]. *)
Definition generateCustomers (now : Z) (count : Z) : list customer :=
  map (generateCustomer now) (Js.zrange 1 (count + 1)).

(** The loop of [generateCustomerBatches]: [i] advances by [batchSize] while
    [i <= totalCount].  [fuel] bounds the number of batches. *)
Fixpoint batches_from (fuel : nat) (now i totalCount batchSize : Z)
  : list (list customer) :=
  match fuel with
  | O => []
  | S fuel' =>
      if i <=? totalCount then
        let end_ := Z.min (i + batchSize) (totalCount + 1) in
        map (generateCustomer now) (Js.zrange i end_)
          :: batches_from fuel' now (i + batchSize) totalCount batchSize
      else []
  end.

(** [generateCustomerBatches(totalCount, batchSize)] for [batchSize >= 1]:
    at most [totalCount] batches are produced. *)
Definition generateCustomerBatches (now totalCount batchSize : Z)
  : list (list customer) :=
  batches_from (Z.to_nat totalCount) now 1 totalCount batchSize.

(** ** src/utils/indexedDB.js *)

Definition VIRTUAL_TOTAL : Z := 1000000.
Definition ACTUAL_STORED : Z := 10000.

(** [generateVirtualCustomer(id)]: the synthesizer of the query engine, with
    its own tables. *)
Definition generateVirtualCustomer (now : Z) (id : Z) : customer :=
  let firstNames :=
    ["James"; "Mary"; "John"; "Patricia"; "Robert"; "Jennifer"; "Michael"; "Linda"] in
  let lastNames :=
    ["Smith"; "Johnson"; "Williams"; "Brown"; "Jones"; "Garcia"; "Miller"; "Davis"] in
  let domains := ["gmail.com"; "yahoo.com"; "outlook.com"] in
  let agents := ["Karthey Mishra"; "Agent Smith"; "Agent Jones"; "Agent Brown"] in
  let firstName := Js.index firstNames (Js.rem id (Js.len firstNames)) in
  let lastName :=
    Js.index lastNames
      (Js.rem (Js.floor_div id (Js.len firstNames)) (Js.len lastNames)) in
  let name := firstName ++ " " ++ lastName in
  let email :=
    Js.toLowerCase firstName ++ "." ++ Js.toLowerCase lastName
      ++ Js.String_of id ++ "@" ++ Js.index domains (Js.rem id (Js.len domains)) in
  let phone := "+1" ++ Js.padStart 10 "0" (Js.String_of id) in
  let score := Js.rem (id * 7) 100 in
  let addedBy := Js.index agents (Js.rem id (Js.len agents)) in
  let lastMessageAt :=
    Js.toISOString (now - Js.rem id 365 * 24 * 60 * 60 * 1000) in
  {| id := id;
     name := name;
     phone := phone;
     email := email;
     score := score;
     lastMessageAt := lastMessageAt;
     addedBy := addedBy;
     avatar := avatarOf id |}.

(** *** The object store

    The store is keyed by [id]; a cursor visits its records in ascending key
    order, so the store is represented by that sequence. *)
Definition store : Type := list customer.

(** [store.put(customer)]: insert, or overwrite the record with the same key. *)
Fixpoint put (c : customer) (st : store) : store :=
  match st with
  | [] => [c]
  | d :: rest =>
      if id c <? id d then c :: d :: rest
      else if id c =? id d then c :: rest
      else d :: put c rest
  end.

(** [saveCustomerBatches]: one transaction per batch, one [put] per record. *)
Definition saveCustomerBatches (batches : list (list customer)) (st : store)
  : store :=
  fold_left (fun st batch => fold_left (fun s c => put c s) batch st) batches st.

(** [hasData()]: the store holds at least one record. *)
Definition hasData (st : store) : bool := 0 <? Js.len st.

(** [initializeApp] of [src/App.jsx]: an empty store is filled with the
    records [1 .. 10000], generated in batches of 1000. *)
Definition initializeApp (now : Z) (st : store) : store :=
  let total := 10000 in
  if hasData st then st
  else saveCustomerBatches (generateCustomerBatches now total 1000) st.

(** *** Errors: a thrown exception is [None] *)
Definition M (A : Type) : Type := option A.
Definition ret {A : Type} (a : A) : M A := Some a.
Definition throw {A : Type} : M A := None.
Definition bind {A B : Type} (m : M A) (k : A -> M B) : M B :=
  match m with
  | Some a => k a
  | None => None
  end.

Notation "x <- m ;; k" := (bind m (fun x => k))
  (at level 61, m at next level, right associativity).

(** *** [Array.prototype.sort]

    The engine's sort is modelled as the insertion sort that calls the
    comparator [cmp tmp element] on the sorted prefix from its right end and
    shifts [tmp] exactly when the result is positive.  The sorted prefix is
    kept reversed.  An array of fewer than two cells never calls [cmp]. *)
Section ArraySort.
Context {A : Type}.
Variable cmp : A -> A -> M Z.

Fixpoint sink (element : A) (revPrefix : list A) : M (list A) :=
  match revPrefix with
  | [] => ret [element]
  | tmp :: rest =>
      order <- cmp tmp element ;;
      if 0 <? order then
        r <- sink element rest ;; ret (tmp :: r)
      else ret (element :: tmp :: rest)
  end.

Fixpoint sort_loop (a : list A) (revPrefix : list A) : M (list A) :=
  match a with
  | [] => ret revPrefix
  | element :: a' => p <- sink element revPrefix ;; sort_loop a' p
  end.

Definition array_sort (a : list A) : M (list A) :=
  p <- sort_loop a [] ;; ret (rev p).
End ArraySort.

(** *** Query parameters and result *)
Inductive sortField : Type :=
  | SortId | SortName | SortPhone | SortEmail | SortScore | SortLastMessageAt.

Inductive sortDirection : Type := Asc | Desc.

Record query : Type := Query {
  offset : Z;
  limit : Z;
  search : string;
  sortBy : sortField;
  sortOrder : sortDirection
}.

Record result : Type := Result {
  data : list customer;
  total : Z;
  hasMore : bool
}.

(** The values the comparator compares: numbers and strings. *)
Inductive jsval : Type :=
  | VNum (n : Z)
  | VStr (s : string).

(** [a > b] and [a < b] on two numbers or on two strings (by code unit).  A
    field has one type, so the mixed cases do not arise. *)
Definition js_gt (a b : jsval) : bool :=
  match a, b with
  | VNum x, VNum y => y <? x
  | VStr x, VStr y => String.ltb y x
  | _, _ => false
  end.

Definition js_lt (a b : jsval) : bool := js_gt b a.

(** [let aVal = a[sortBy]; if (sortBy === 'lastMessageAt') aVal = new
    Date(aVal).getTime();] *)
Definition sortValue (sortBy : sortField) (a : customer) : jsval :=
  match sortBy with
  | SortId => VNum (id a)
  | SortName => VStr (name a)
  | SortPhone => VStr (phone a)
  | SortEmail => VStr (email a)
  | SortScore => VNum (score a)
  | SortLastMessageAt => VNum (Js.getTime (lastMessageAt a))
  end.

(** The comparator passed to [sort], on two records. *)
Definition compareCustomers (sortBy : sortField) (sortOrder : sortDirection)
  (a b : customer) : Z :=
  let aVal := sortValue sortBy a in
  let bVal := sortValue sortBy b in
  match sortOrder with
  | Asc => if js_gt aVal bVal then 1 else -1
  | Desc => if js_lt aVal bVal then 1 else -1
  end.

(** The comparator on array cells of the no-search path: reading a field of
    [null] throws. *)
Definition compareCells (sortBy : sortField) (sortOrder : sortDirection)
  (a b : option customer) : M Z :=
  match a, b with
  | Some a, Some b => ret (compareCustomers sortBy sortOrder a b)
  | _, _ => throw
  end.

(** *** The no-search path *)

(** The placeholder loop: [null] below [ACTUAL_STORED], a virtual customer
    from there on. *)
Definition placeholders (now start end_ : Z) : list (option customer) :=
  map (fun i => if i <? ACTUAL_STORED then None
                else Some (generateVirtualCustomer now (i + 1)))
      (Js.zrange start end_).

(** The cursor loop that collects [realData]: the cursor stops at the end of
    the store or once [count] reaches [end_]. *)
Fixpoint scanWindow (start end_ count : Z) (cursor : list customer)
  (realData : list customer) : list customer :=
  match cursor with
  | [] => realData
  | value :: next =>
      if count <? end_ then
        scanWindow start end_ (count + 1) next
          (if (start <=? count) && (count <? end_)
           then realData ++ [value] else realData)
      else realData
  end.

(** [a[idx] = v]: overwrite inside the array, append at its end. *)
Definition array_set {A : Type} (a : list A) (idx : nat) (v : A) : list A :=
  if (idx <? List.length a)%nat
  then firstn idx a ++ v :: skipn (S idx) a
  else a ++ [v].

(** [realData.forEach((customer, idx) => { results[idx] = customer; })];
    [idx] counts up from zero, so it never passes the end of [results] by
    more than one. *)
Fixpoint mergeReal (realData : list customer) (idx : nat)
  (results : list (option customer)) : list (option customer) :=
  match realData with
  | [] => results
  | customer :: rest =>
      mergeReal rest (S idx) (array_set results idx (Some customer))
  end.

(** [results.filter(r => r !== null)] *)
Fixpoint dropNull (results : list (option customer)) : list customer :=
  match results with
  | [] => []
  | Some c :: rest => c :: dropNull rest
  | None :: rest => dropNull rest
  end.

(** *** The search path *)

Definition matches (search searchLower : string) (customer : customer) : bool :=
  Js.includes (Js.toLowerCase (name customer)) searchLower
  || Js.includes (Js.toLowerCase (email customer)) searchLower
  || Js.includes (phone customer) search.

(** The cursor loop of the search path: every record is visited. *)
Fixpoint scanSearch (search searchLower : string) (cursor : list customer)
  (results : list customer) : list customer :=
  match cursor with
  | [] => results
  | customer :: next =>
      scanSearch search searchLower next
        (if matches search searchLower customer
         then results ++ [customer] else results)
  end.

(** [!search] *)
Definition falsy (s : string) : bool :=
  match s with
  | EmptyString => true
  | _ => false
  end.

(** [getCustomers({offset, limit, search, sortBy, sortOrder})] on the store
    [st] with the clock reading [now]. *)
Definition getCustomers (st : store) (now : Z) (q : query) : M result :=
  if falsy (search q) then
    let start := offset q in
    let end_ := Z.min (offset q + limit q) VIRTUAL_TOTAL in
    let results := placeholders now start end_ in
    let realData := scanWindow start end_ 0 st [] in
    let results := mergeReal realData 0 results in
    results <-
      match sortBy q with
      | SortId => ret results
      | _ => array_sort (compareCells (sortBy q) (sortOrder q)) results
      end ;;
    ret {| data := dropNull results;
           total := VIRTUAL_TOTAL;
           hasMore := end_ <? VIRTUAL_TOTAL |}
  else
    let searchLower := Js.toLowerCase (search q) in
    let results := scanSearch (search q) searchLower st [] in
    results <-
      array_sort (fun a b => ret (compareCustomers (sortBy q) (sortOrder q) a b))
        results ;;
    let paginated := Js.slice results (offset q) (offset q + limit q) in
    ret {| data := paginated;
           total := Js.len results;
           hasMore := offset q + limit q <? Js.len results |}.

(** ** src/components/CustomerTable.jsx: navigation *)

Module CustomerTable.

(** A JavaScript number that results from a division: a rational, or one of
    the special values that dividing by zero produces. *)
Inductive jsnum : Type :=
  | Num (q : Q)
  | NaN
  | Infinity
  | NegInfinity.

(** [a / b] on integers. *)
Definition js_div (a b : Z) : jsnum :=
  if b =? 0 then
    if a =? 0 then NaN else if 0 <? a then Infinity else NegInfinity
  else Num (inject_Z a / inject_Z b).

(** The component state that navigation reads and writes. *)
Record state : Type := State {
  customers : list customer;
  loading : bool;
  searchTerm : string;
  sortBy : sortField;
  sortOrder : sortDirection;
  totalCount : Z;
  currentRow : Z;
  scrollPercentage : jsnum
}.

Definition initialState : state :=
  {| customers := [];
     loading := false;
     searchTerm := "";
     sortBy := SortId;
     sortOrder := Asc;
     totalCount := 1000000;
     currentRow := 1;
     scrollPercentage := Num 0 |}.

Definition ITEMS_PER_PAGE : Z := 30.

Definition setScrollPercentage (s : state) (p : jsnum) : state :=
  {| customers := customers s;
     loading := loading s;
     searchTerm := searchTerm s;
     sortBy := sortBy s;
     sortOrder := sortOrder s;
     totalCount := totalCount s;
     currentRow := currentRow s;
     scrollPercentage := p |}.

Inductive key : Type :=
  | ArrowDown | ArrowUp | PageDown | PageUp | Home | End_ | OtherKey.

Record keyEvent : Type := KeyEvent {
  targetIsInput : bool;   (* e.target.tagName === 'INPUT' *)
  pressed : key
}.

(** The offset each handler passes to [loadCustomersAtOffset]; [None] when
    the handler returns without navigating. *)

(** [updateScrollPosition]: [percentage] is the clamped pointer ratio. *)
Definition scrollbarOffset (totalCount : Z) (percentage : Q) : Z :=
  let targetRow := Qfloor (percentage * inject_Z totalCount) in
  Z.max 0 (Z.min (totalCount - ITEMS_PER_PAGE) targetRow).

(** [handleWheel] *)
Definition wheelOffset (totalCount currentRow : Z) (deltaY : Q) : Z :=
  let delta :=
    if negb (Qle_bool deltaY 0) then ITEMS_PER_PAGE else - ITEMS_PER_PAGE in
  Z.max 0 (Z.min (totalCount - ITEMS_PER_PAGE) (currentRow - 1 + delta)).

(** [handleKeyDown] *)
Definition keyOffset (totalCount currentRow : Z) (e : keyEvent) : option Z :=
  if targetIsInput e then None
  else
    let newOffset := currentRow - 1 in
    match pressed e with
    | ArrowDown => Some (Z.min (totalCount - ITEMS_PER_PAGE) (newOffset + 1))
    | ArrowUp => Some (Z.max 0 (newOffset - 1))
    | PageDown =>
        Some (Z.min (totalCount - ITEMS_PER_PAGE) (newOffset + ITEMS_PER_PAGE))
    | PageUp => Some (Z.max 0 (newOffset - ITEMS_PER_PAGE))
    | Home => Some 0
    | End_ => Some (totalCount - ITEMS_PER_PAGE)
    | OtherKey => None
    end.

(** [handleJumpToRow]: [rowNumber] is [parseInt(input.value)], [None] for
    [NaN], which fails both comparisons. *)
Definition jumpOffset (totalCount : Z) (rowNumber : option Z) : option Z :=
  match rowNumber with
  | Some rowNumber =>
      if (1 <=? rowNumber) && (rowNumber <=? totalCount)
      then Some (Z.max 0 (rowNumber - 1))
      else None
  | None => None
  end.

Section Handlers.
Variable st : store.
Variable now : Z.

(** [loadCustomersAtOffset(offset)], run to completion.  When the query
    never resolves, the component stays in its loading state. *)
Definition loadCustomersAtOffset (s : state) (offset : Z) : state :=
  match
    getCustomers st now
      (Query offset ITEMS_PER_PAGE (searchTerm s) (sortBy s) (sortOrder s))
  with
  | Some result =>
      {| customers := data result;
         loading := false;
         searchTerm := searchTerm s;
         sortBy := sortBy s;
         sortOrder := sortOrder s;
         totalCount := total result;
         currentRow := offset + 1;
         scrollPercentage := scrollPercentage s |}
  | None =>
      {| customers := customers s;
         loading := true;
         searchTerm := searchTerm s;
         sortBy := sortBy s;
         sortOrder := sortOrder s;
         totalCount := totalCount s;
         currentRow := currentRow s;
         scrollPercentage := scrollPercentage s |}
  end.

(** [updateScrollPosition] with the scrollbar mounted; [ratio] is
    [y / rect.height]. *)
Definition updateScrollPosition (s : state) (ratio : Q) : state :=
  let percentage := Qmax 0 (Qmin 1 ratio) in
  let offset := scrollbarOffset (totalCount s) percentage in
  loadCustomersAtOffset (setScrollPercentage s (Num percentage)) offset.

Definition handleWheel (s : state) (deltaY : Q) : state :=
  let newOffset := wheelOffset (totalCount s) (currentRow s) deltaY in
  let newPercentage := js_div newOffset (totalCount s) in
  loadCustomersAtOffset (setScrollPercentage s newPercentage) newOffset.

Definition handleKeyDown (s : state) (e : keyEvent) : state :=
  match keyOffset (totalCount s) (currentRow s) e with
  | Some newOffset =>
      loadCustomersAtOffset
        (setScrollPercentage s (js_div newOffset (totalCount s))) newOffset
  | None => s
  end.

Definition handleJumpToRow (s : state) (rowNumber : option Z) : state :=
  match jumpOffset (totalCount s) rowNumber with
  | Some offset =>
      loadCustomersAtOffset
        (setScrollPercentage s (js_div offset (totalCount s))) offset
  | None => s
  end.
End Handlers.

End CustomerTable.

(** ** Notions used to state the properties *)

(** The cell of the merged window at logical index [i]: the record the
    cursor yields at position [i] when there is one, else the placeholder. *)
Definition windowCell (st : store) (now i : Z) : option customer :=
  match nth_error st (Z.to_nat i) with
  | Some c => Some c
  | None =>
      if i <? ACTUAL_STORED then None
      else Some (generateVirtualCustomer now (i + 1))
  end.

(** The end of the window: [Math.min(offset + limit, VIRTUAL_TOTAL)]. *)
Definition windowEnd (q : query) : Z := Z.min (offset q + limit q) VIRTUAL_TOTAL.

(** The record at logical index [i] once the window is fully materialised. *)
Definition windowRecord (st : store) (now i : Z) : customer :=
  nth (Z.to_nat i) st (generateVirtualCustomer now (i + 1)).

(** The store holds the ids [1 .. n] with no gap, [n] its size. *)
Definition densePrefix (st : store) : Prop :=
  map id st = Js.zrange 1 (Js.len st + 1).

(** Non-strict order on the compared values of one field. *)
Definition val_le (a b : jsval) : bool :=
  match a, b with
  | VNum x, VNum y => x <=? y
  | VStr x, VStr y => String.leb x y
  | _, _ => false
  end.

(** [a] may stand before [b] in a page sorted by [f] in direction [o], as
    the comparator reads and compares the two records. *)
Definition inOrder (f : sortField) (o : sortDirection) (a b : customer) : Prop :=
  match o with
  | Asc => val_le (sortValue f a) (sortValue f b) = true
  | Desc => val_le (sortValue f b) (sortValue f a) = true
  end.

(** The same on array cells; a [null] cell is never in order with another. *)
Definition cellsInOrder (f : sortField) (o : sortDirection)
  (a b : option customer) : Prop :=
  match a, b with
  | Some a, Some b => inOrder f o a b
  | _, _ => False
  end.

(** A phone made of ['+'] and decimal digits only. *)
Definition plainChar (c : ascii) : bool :=
  Js.is_digit c || Ascii.eqb c "+".

Fixpoint allChars (p : ascii -> bool) (s : string) : bool :=
  match s with
  | EmptyString => true
  | String c s' => p c && allChars p s'
  end.

Definition plainPhone (c : customer) : Prop :=
  allChars plainChar (phone c) = true.

(** The run of decimal digits that follows the longest digit-free prefix of
    a string: in an email address, the text between the name part and the
    ['@']. *)
Fixpoint takeDigits (s : string) : string :=
  match s with
  | EmptyString => EmptyString
  | String c s' =>
      if Js.is_digit c then String c (takeDigits s') else EmptyString
  end.

Fixpoint embeddedDigits (s : string) : string :=
  match s with
  | EmptyString => EmptyString
  | String c s' =>
      if Js.is_digit c then takeDigits s else embeddedDigits s'
  end.

Definition notDigit (c : ascii) : bool := negb (Js.is_digit c).

(** The query [q] with another search term. *)
Definition withSearch (q : query) (term : string) : query :=
  {| offset := offset q;
     limit := limit q;
     search := term;
     sortBy := sortBy q;
     sortOrder := sortOrder q |}.


(** ** Further code: progress reports, sorting by column, the counter *)

(** The first arguments of the [onProgress] calls of [saveCustomerBatches]:
    [processedCount += batch.length] after each batch. *)
Fixpoint onProgressCalls (processedCount : Z) (batches : list (list customer))
  : list Z :=
  match batches with
  | [] => []
  | batch :: rest =>
      let processedCount := processedCount + Js.len batch in
      processedCount :: onProgressCalls processedCount rest
  end.

Module CustomerTableView.
Import CustomerTable.

(** [sortBy === column] *)
Definition sameColumn (a b : sortField) : bool :=
  match a, b with
  | SortId, SortId | SortName, SortName | SortPhone, SortPhone
  | SortEmail, SortEmail | SortScore, SortScore
  | SortLastMessageAt, SortLastMessageAt => true
  | _, _ => false
  end.

(** [handleSort(column)]: the state updates of the click. *)
Definition handleSort (s : state) (column : sortField) : state :=
  {| customers := customers s;
     loading := loading s;
     searchTerm := searchTerm s;
     sortBy := if sameColumn (sortBy s) column then sortBy s else column;
     sortOrder :=
       if sameColumn (sortBy s) column
       then match sortOrder s with Asc => Desc | Desc => Asc end
       else Asc;
     totalCount := totalCount s;
     currentRow := 1;
     scrollPercentage := Num 0 |}.

(** The effect on [[searchTerm, sortBy, sortOrder]]: a click on a column
    header always changes the sort field or the direction, so the effect
    runs and reloads from the top. *)
Definition clickColumn (st : store) (now : Z) (s : state) (column : sortField)
  : state :=
  loadCustomersAtOffset st now (handleSort s column) 0.

(** [getPaginationText()]; [toLocaleString] is the number formatting of the
    host locale. *)
Definition getPaginationText (toLocaleString : Z -> string) (s : state)
  : string :=
  let start := currentRow s in
  let end_ := Z.min (currentRow s + Js.len (customers s) - 1) (totalCount s) in
  (toLocaleString start ++ "-" ++ toLocaleString end_ ++ " of "
     ++ toLocaleString (totalCount s))%string.

End CustomerTableView.

(** ** Further notions *)

(** The cursor order of a store: keys strictly ascending, hence unique. *)
Definition keysAscending (st : store) : Prop :=
  StronglySorted Z.lt (map id st).

(** [c] is the last record written under its key by the writes [l]. *)
Definition lastWrite (c : customer) (l : list customer) : Prop :=
  exists l1 l2, l = (l1 ++ c :: l2)%list /\ ~ In (id c) (map id l2).

(** Any character but ['+']. *)
Definition notPlus (c : ascii) : bool := negb (Ascii.eqb c "+").

(** The id that the digits of a phone denote, the ["+1"] prefix removed. *)
Definition phoneId (s : string) : option Z :=
  match s with
  | String "+" (String "1" digits) =>
      option_map Z.of_uint (NilEmpty.uint_of_string digits)
  | _ => None
  end.

(** ** Order and matching, as the specification words them

    These notions are written from the text of the specification; they do
    not mention the comparator's [sortValue] nor the filter's [matches].  The
    properties of [getCustomers] are stated with them. *)

(** Strings in lexicographic order of their code units. *)
Definition lexLe (x y : string) : Prop := x = y \/ String_as_OT.lt x y.

(** The sort field [f] of [a] is at most that of [b]: the id and the score
    as numbers, the name, the phone and the email as strings, and
    [lastMessageAt] by the instant the timestamp denotes. *)
Definition fieldLe (f : sortField) (a b : customer) : Prop :=
  match f with
  | SortId => id a <= id b
  | SortName => lexLe (name a) (name b)
  | SortPhone => lexLe (phone a) (phone b)
  | SortEmail => lexLe (email a) (email b)
  | SortScore => score a <= score b
  | SortLastMessageAt =>
      Js.getTime (lastMessageAt a) <= Js.getTime (lastMessageAt b)
  end.

(** [a] may stand before [b] in a list sorted by [f]: non-decreasing for
    [asc], non-increasing for [desc]. *)
Definition orderedBy (f : sortField) (o : sortDirection) (a b : customer)
  : Prop :=
  match o with
  | Asc => fieldLe f a b
  | Desc => fieldLe f b a
  end.

(** [t] occurs in [s] as a contiguous substring. *)
Definition contains (s t : string) : Prop :=
  exists a b, s = (a ++ t ++ b)%string.

(** The matching rule: the name or the email contains the term when the case
    of the letters is ignored (both sides lowercased), or the phone contains
    the term as typed. *)
Definition matchesRule (term : string) (c : customer) : Prop :=
  contains (Js.toLowerCase (name c)) (Js.toLowerCase term) \/
  contains (Js.toLowerCase (email c)) (Js.toLowerCase term) \/
  contains (phone c) term.

(** [matchingSet term st m]: [m] holds the records of [st] that satisfy the
    matching rule, all of them and no other, in the order of the store. *)
Inductive matchingSet (term : string) : list customer -> list customer -> Prop :=
  | matching_nil : matchingSet term [] []
  | matching_keep c st m :
      matchesRule term c -> matchingSet term st m ->
      matchingSet term (c :: st) (c :: m)
  | matching_skip c st m :
      ~ matchesRule term c -> matchingSet term st m ->
      matchingSet term (c :: st) m.

(** A character of the ASCII range. *)
Definition isAscii (c : ascii) : bool := (nat_of_ascii c <? 128)%nat.

(** ** Facts about the primitives *)

Local Open Scope list_scope.

Lemma zrange_length lo hi : List.length (Js.zrange lo hi) = Z.to_nat (hi - lo).
Proof. unfold Js.zrange. now rewrite length_map, length_seq. Qed.

Lemma zrange_nth_error lo hi k :
  (k < Z.to_nat (hi - lo))%nat ->
  nth_error (Js.zrange lo hi) k = Some (lo + Z.of_nat k).
Proof.
  intros Hk. unfold Js.zrange.
  rewrite nth_error_map, nth_error_seq.
  destruct (Nat.ltb_spec k (Z.to_nat (hi - lo))); [reflexivity | lia].
Qed.

Lemma zrange_empty lo hi : hi <= lo -> Js.zrange lo hi = [].
Proof.
  intros H. unfold Js.zrange.
  replace (Z.to_nat (hi - lo)) with 0%nat by lia. reflexivity.
Qed.

Lemma zrange_cons lo hi : lo < hi -> Js.zrange lo hi = lo :: Js.zrange (lo + 1) hi.
Proof.
  intros H. unfold Js.zrange.
  replace (Z.to_nat (hi - lo)) with (S (Z.to_nat (hi - (lo + 1)))) by lia.
  simpl. f_equal; [lia |].
  rewrite <- seq_shift, map_map.
  apply map_ext. intros k. lia.
Qed.

Lemma zrange_In lo hi i : In i (Js.zrange lo hi) <-> lo <= i < hi.
Proof.
  unfold Js.zrange. rewrite in_map_iff. split.
  - intros (k & <- & Hk). apply in_seq in Hk. lia.
  - intros H. exists (Z.to_nat (i - lo)). split; [lia |].
    apply in_seq. lia.
Qed.

(** The cursor loop collects the records at positions [start .. end_-1]. *)
Lemma scanWindow_spec cursor : forall start end_ count acc,
  scanWindow start end_ count cursor acc =
  acc ++ firstn (Z.to_nat (end_ - Z.max start count))
           (skipn (Z.to_nat (start - count)) cursor).
Proof.
  induction cursor as [| value next IH]; intros start end_ count acc; simpl.
  - now rewrite skipn_nil, firstn_nil, app_nil_r.
  - destruct (Z.ltb_spec count end_) as [Hlt | Hge].
    + rewrite IH. destruct (Z.leb_spec start count) as [Hs | Hs]; simpl.
      * replace (Z.to_nat (start - count)) with 0%nat by lia.
        replace (Z.to_nat (start - (count + 1))) with 0%nat by lia.
        replace (Z.to_nat (end_ - Z.max start count))
          with (S (Z.to_nat (end_ - Z.max start (count + 1)))) by lia.
        simpl. now rewrite <- app_assoc.
      * replace (Z.to_nat (start - count))
          with (S (Z.to_nat (start - (count + 1)))) by lia.
        simpl. do 2 f_equal. lia.
    + replace (Z.to_nat (end_ - Z.max start count)) with 0%nat by lia.
      simpl. now rewrite app_nil_r.
Qed.

Lemma scanWindow_window st start end_ :
  0 <= start ->
  scanWindow start end_ 0 st [] =
  firstn (Z.to_nat (end_ - start)) (skipn (Z.to_nat start) st).
Proof.
  intros H. rewrite scanWindow_spec. simpl.
  rewrite Z.max_l by lia. now rewrite Z.sub_0_r.
Qed.

Lemma array_set_inside {A : Type} (a : list A) idx v :
  (idx < List.length a)%nat ->
  array_set a idx v = firstn idx a ++ v :: skipn (S idx) a.
Proof.
  intros H. unfold array_set.
  destruct (Nat.ltb_spec idx (List.length a)); [reflexivity | lia].
Qed.

Lemma firstn_past_prefix {A : Type} (F K : list A) v :
  firstn (S (List.length F)) (F ++ v :: K) = F ++ [v].
Proof. induction F as [| x F IH]; simpl in *; [reflexivity | now f_equal]. Qed.

Lemma skipn_past_prefix {A : Type} (F K : list A) v n :
  skipn (S (List.length F) + n) (F ++ v :: K) = skipn n K.
Proof. induction F as [| x F IH]; simpl; [reflexivity | exact IH]. Qed.

Lemma mergeReal_spec realData : forall idx results,
  (idx + List.length realData <= List.length results)%nat ->
  mergeReal realData idx results =
  firstn idx results ++ map Some realData
    ++ skipn (idx + List.length realData) results.
Proof.
  induction realData as [| c rest IH]; intros idx results Hlen.
  - simpl. rewrite Nat.add_0_r. now rewrite firstn_skipn.
  - cbn [mergeReal map List.length] in *.
    rewrite array_set_inside by lia.
    assert (Hf : List.length (firstn idx results) = idx)
      by (rewrite length_firstn; lia).
    rewrite IH.
    + rewrite <- Hf at 1. rewrite firstn_past_prefix.
      rewrite <- Hf at 2. rewrite skipn_past_prefix.
      rewrite skipn_skipn, <- app_assoc. cbn [app].
      do 3 f_equal. f_equal. lia.
    + rewrite length_app, Hf. cbn [List.length].
      rewrite length_skipn. lia.
Qed.

(** The merged array, cell by cell. *)
Lemma merged_cells st now start end_ :
  0 <= start ->
  mergeReal (scanWindow start end_ 0 st []) 0 (placeholders now start end_) =
  map (windowCell st now) (Js.zrange start end_).
Proof.
  intros Hs. rewrite scanWindow_window by assumption.
  set (m := Z.to_nat (end_ - start)).
  set (n := Z.to_nat start).
  set (real := firstn m (skipn n st)).
  assert (Hph : List.length (placeholders now start end_) = m)
    by (unfold placeholders; now rewrite length_map, zrange_length).
  assert (Hreal : List.length real = Nat.min m (List.length st - n))
    by (unfold real; now rewrite length_firstn, length_skipn).
  rewrite mergeReal_spec by lia. simpl.
  apply nth_error_ext. intros k.
  rewrite nth_error_app, length_map, nth_error_map.
  destruct (Nat.ltb_spec k (List.length real)) as [Hk | Hk].
  - unfold real. rewrite nth_error_firstn, nth_error_skipn.
    destruct (Nat.ltb_spec k m); [| lia].
    rewrite nth_error_map, zrange_nth_error by (fold m; lia).
    simpl. unfold windowCell.
    replace (Z.to_nat (start + Z.of_nat k)) with (n + k)%nat by lia.
    destruct (nth_error st (n + k)) eqn:E; [reflexivity |].
    apply nth_error_None in E. lia.
  - rewrite nth_error_skipn.
    replace (List.length real + (k - List.length real))%nat with k by lia.
    unfold placeholders. rewrite !nth_error_map.
    destruct (Nat.ltb_spec k m) as [Hm | Hm].
    + rewrite zrange_nth_error by (fold m; lia). simpl.
      unfold windowCell.
      replace (Z.to_nat (start + Z.of_nat k)) with (n + k)%nat by lia.
      destruct (nth_error st (n + k)) eqn:E; [| reflexivity].
      assert (nth_error st (n + k) <> None) as Hn by congruence.
      apply nth_error_Some in Hn. lia.
    + assert (E : nth_error (Js.zrange start end_) k = None)
        by (apply nth_error_None; rewrite zrange_length; fold m; lia).
      now rewrite E.
Qed.

(** ** Facts about the sort *)

Lemma Sorted_snoc {A : Type} (R : A -> A -> Prop) (l : list A) (b : A) :
  Sorted R l -> (forall a, last l b = a -> l <> [] -> R a b) ->
  Sorted R (l ++ [b]).
Proof.
  induction l as [| x l IH]; intros Hs Hlast; simpl.
  - repeat constructor.
  - inversion Hs as [| ? ? Hs' Hhd]; subst.
    constructor.
    + apply IH; [assumption |].
      intros a Ha Hne. apply Hlast; [| discriminate].
      destruct l; [contradiction | exact Ha].
    + destruct l as [| y l]; simpl.
      * constructor. apply Hlast; [reflexivity | discriminate].
      * constructor. now inversion Hhd.
Qed.

Lemma Sorted_rev {A : Type} (R : A -> A -> Prop) (l : list A) :
  Sorted (fun a b => R b a) l -> Sorted R (rev l).
Proof.
  induction l as [| x l IH]; intros Hs; simpl.
  - constructor.
  - inversion Hs as [| ? ? Hs' Hhd]; subst.
    apply Sorted_snoc; [now apply IH |].
    intros a Ha Hne.
    destruct l as [| y l]; [now contradiction Hne |].
    inversion Hhd; subst.
    simpl. rewrite last_last. assumption.
Qed.

Section ArraySortFacts.
Context {A : Type}.
Variable cmp : A -> A -> M Z.

Lemma sink_perm element : forall revPrefix r,
  sink cmp element revPrefix = Some r -> Permutation (element :: revPrefix) r.
Proof.
  induction revPrefix as [| tmp rest IH]; intros r H; simpl in H.
  - injection H as <-. apply Permutation_refl.
  - destruct (cmp tmp element) as [order |]; [| discriminate].
    simpl in H. destruct (0 <? order).
    + destruct (sink cmp element rest) as [r' |] eqn:E; [| discriminate].
      simpl in H. injection H as <-.
      rewrite perm_swap. apply perm_skip. now apply IH.
    + injection H as <-. apply Permutation_refl.
Qed.

Lemma sort_loop_perm a : forall revPrefix r,
  sort_loop cmp a revPrefix = Some r -> Permutation (a ++ revPrefix) r.
Proof.
  induction a as [| element a' IH]; intros revPrefix r H; simpl in H.
  - injection H as <-. apply Permutation_refl.
  - destruct (sink cmp element revPrefix) as [p |] eqn:E; [| discriminate].
    simpl in H. apply IH in H. apply sink_perm in E.
    simpl. rewrite <- H. rewrite Permutation_middle.
    apply Permutation_app_head. exact E.
Qed.

(** A sort that returns, returns a permutation of its input. *)
Lemma array_sort_perm a r :
  array_sort cmp a = Some r -> Permutation a r.
Proof.
  unfold array_sort. intros H.
  destruct (sort_loop cmp a []) as [p |] eqn:E; [| discriminate].
  simpl in H. injection H as <-.
  apply sort_loop_perm in E. rewrite app_nil_r in E.
  rewrite E. apply Permutation_rev.
Qed.

(** Sortedness: [R a b] reads "[a] may stand before [b]". *)
Variable R : A -> A -> Prop.
Hypothesis shift_sound : forall tmp element order,
  cmp tmp element = Some order -> 0 < order -> R element tmp.
Hypothesis stay_sound : forall tmp element order,
  cmp tmp element = Some order -> order <= 0 -> R tmp element.

Lemma sink_hd element : forall revPrefix r x,
  sink cmp element revPrefix = Some r ->
  HdRel (fun a b => R b a) x revPrefix -> R element x ->
  HdRel (fun a b => R b a) x r.
Proof.
  intros revPrefix r x H Hhd Hx.
  destruct revPrefix as [| tmp rest]; simpl in H.
  - injection H as <-. now constructor.
  - destruct (cmp tmp element) as [order |]; [| discriminate].
    simpl in H. destruct (0 <? order).
    + destruct (sink cmp element rest) as [r' |]; [| discriminate].
      simpl in H. injection H as <-.
      constructor. now inversion Hhd.
    + injection H as <-. now constructor.
Qed.

Lemma sink_sorted element : forall revPrefix r,
  sink cmp element revPrefix = Some r ->
  Sorted (fun a b => R b a) revPrefix ->
  Sorted (fun a b => R b a) r.
Proof.
  induction revPrefix as [| tmp rest IH]; intros r H Hs; simpl in H.
  - injection H as <-. repeat constructor.
  - destruct (cmp tmp element) as [order |] eqn:Ec; [| discriminate].
    simpl in H. destruct (Z.ltb_spec 0 order) as [Hpos | Hneg].
    + destruct (sink cmp element rest) as [r' |] eqn:E; [| discriminate].
      simpl in H. injection H as <-.
      inversion Hs as [| ? ? Hs' Hhd]; subst.
      constructor; [now apply IH |].
      eapply sink_hd; eauto.
    + injection H as <-.
      constructor; [assumption |].
      constructor. eauto.
Qed.

Lemma sort_loop_sorted a : forall revPrefix r,
  sort_loop cmp a revPrefix = Some r ->
  Sorted (fun a b => R b a) revPrefix ->
  Sorted (fun a b => R b a) r.
Proof.
  induction a as [| element a' IH]; intros revPrefix r H Hs; simpl in H.
  - now injection H as <-.
  - destruct (sink cmp element revPrefix) as [p |] eqn:E; [| discriminate].
    simpl in H. eapply IH; [exact H |].
    eapply sink_sorted; eauto.
Qed.

(** A sort that returns, returns its input in order. *)
Lemma array_sort_sorted a r :
  array_sort cmp a = Some r -> Sorted R r.
Proof.
  unfold array_sort. intros H.
  destruct (sort_loop cmp a []) as [p |] eqn:E; [| discriminate].
  simpl in H. injection H as <-.
  apply Sorted_rev. eapply sort_loop_sorted; [exact E | constructor].
Qed.
End ArraySortFacts.

Section ArraySortTotal.
Context {A : Type}.
Variable f : A -> A -> Z.

Lemma sink_total element : forall revPrefix,
  exists r, sink (fun a b => ret (f a b)) element revPrefix = Some r.
Proof.
  induction revPrefix as [| tmp rest [r IH]]; simpl.
  - eauto.
  - destruct (0 <? f tmp element); [| eauto].
    rewrite IH. simpl. eauto.
Qed.

Lemma sort_loop_total a : forall revPrefix,
  exists r, sort_loop (fun a b => ret (f a b)) a revPrefix = Some r.
Proof.
  induction a as [| element a' IH]; intros revPrefix; simpl.
  - eauto.
  - destruct (sink_total element revPrefix) as [p ->]. simpl. apply IH.
Qed.

(** A comparator that never throws makes the sort return. *)
Lemma array_sort_total a :
  exists r, array_sort (fun a b => ret (f a b)) a = Some r.
Proof.
  unfold array_sort.
  destruct (sort_loop_total a []) as [p ->]. simpl. eauto.
Qed.
End ArraySortTotal.

(** ** Facts about the comparator *)

Lemma string_ltb_leb x y : String.ltb x y = true -> String.leb x y = true.
Proof.
  unfold String.ltb, String.leb.
  destruct (String.compare x y); intros; congruence.
Qed.

Lemma string_not_ltb_leb x y : String.ltb x y = false -> String.leb y x = true.
Proof.
  unfold String.ltb, String.leb. rewrite (String.compare_antisym x y).
  destruct (String.compare y x); simpl; intros; congruence.
Qed.

Lemma js_gt_true f a b :
  js_gt (sortValue f a) (sortValue f b) = true ->
  val_le (sortValue f b) (sortValue f a) = true.
Proof.
  destruct f; simpl; intros H;
    try (apply Z.leb_le; apply Z.ltb_lt in H; lia);
    now apply string_ltb_leb.
Qed.

Lemma js_gt_false f a b :
  js_gt (sortValue f a) (sortValue f b) = false ->
  val_le (sortValue f a) (sortValue f b) = true.
Proof.
  destruct f; simpl; intros H;
    try (apply Z.leb_le; apply Z.ltb_ge in H; lia);
    now apply string_not_ltb_leb.
Qed.

Lemma compareCustomers_shift f o tmp element :
  0 < compareCustomers f o tmp element -> inOrder f o element tmp.
Proof.
  unfold compareCustomers, inOrder, js_lt. destruct o.
  - destruct (js_gt (sortValue f tmp) (sortValue f element)) eqn:E;
      [intros _; now apply js_gt_true | lia].
  - destruct (js_gt (sortValue f element) (sortValue f tmp)) eqn:E;
      [intros _; now apply js_gt_true | lia].
Qed.

Lemma compareCustomers_stay f o tmp element :
  compareCustomers f o tmp element <= 0 -> inOrder f o tmp element.
Proof.
  unfold compareCustomers, inOrder, js_lt. destruct o.
  - destruct (js_gt (sortValue f tmp) (sortValue f element)) eqn:E;
      [lia | intros _; now apply js_gt_false].
  - destruct (js_gt (sortValue f element) (sortValue f tmp)) eqn:E;
      [lia | intros _; now apply js_gt_false].
Qed.

Lemma compareCells_shift f o tmp element order :
  compareCells f o tmp element = Some order -> 0 < order ->
  cellsInOrder f o element tmp.
Proof.
  destruct tmp as [a |], element as [b |]; simpl; try discriminate.
  intros H. injection H as <-. apply compareCustomers_shift.
Qed.

Lemma compareCells_stay f o tmp element order :
  compareCells f o tmp element = Some order -> order <= 0 ->
  cellsInOrder f o tmp element.
Proof.
  destruct tmp as [a |], element as [b |]; simpl; try discriminate.
  intros H. injection H as <-. apply compareCustomers_stay.
Qed.

Lemma string_leb_cases x y :
  String.leb x y = true <-> x = y \/ String_as_OT.lt x y.
Proof.
  unfold String.leb.
  rewrite <- String_as_OT.cmp_eq, <- String_as_OT.cmp_lt.
  unfold String_as_OT.cmp.
  destruct (String.compare x y); split; intuition congruence.
Qed.

Lemma string_leb_trans x y z :
  String.leb x y = true -> String.leb y z = true -> String.leb x z = true.
Proof.
  rewrite !string_leb_cases. intros [-> | Hxy] [-> | Hyz]; auto.
  right. eapply String_as_OT.lt_trans; eassumption.
Qed.

Lemma val_le_trans a b c :
  val_le a b = true -> val_le b c = true -> val_le a c = true.
Proof.
  destruct a, b, c; simpl; try discriminate.
  - rewrite !Z.leb_le. lia.
  - apply string_leb_trans.
Qed.

Lemma inOrder_trans f o : Transitive (inOrder f o).
Proof.
  intros a b c. unfold inOrder. destruct o; intros Hab Hbc;
    eapply val_le_trans; eassumption.
Qed.

(** In a page that is in order, every record is in order with every later
    one. *)
Lemma inOrder_strongly f o l :
  Sorted (inOrder f o) l -> StronglySorted (inOrder f o) l.
Proof. apply Sorted_StronglySorted, inOrder_trans. Qed.

(** The comparator's order is the order of the specification: the value it
    reads is the sort field, and its comparison is the order of the field's
    type. *)
Lemma val_le_fieldLe f a b :
  val_le (sortValue f a) (sortValue f b) = true -> fieldLe f a b.
Proof.
  destruct f; cbn [sortValue val_le fieldLe]; intros H;
    try (now apply Z.leb_le); now apply string_leb_cases.
Qed.

Lemma inOrder_orderedBy f o a b : inOrder f o a b -> orderedBy f o a b.
Proof. destruct o; apply val_le_fieldLe. Qed.

Lemma StronglySorted_impl {A : Type} (R R' : A -> A -> Prop) l :
  (forall a b, R a b -> R' a b) -> StronglySorted R l -> StronglySorted R' l.
Proof.
  intros Himp. induction 1 as [| a l _ IH Hall]; constructor; [exact IH |].
  eapply Forall_impl; [| exact Hall]. intros b. apply Himp.
Qed.

Lemma orderedBy_strongly f o l :
  Sorted (inOrder f o) l -> StronglySorted (orderedBy f o) l.
Proof.
  intros H. apply (StronglySorted_impl (inOrder f o)).
  - apply inOrder_orderedBy.
  - now apply inOrder_strongly.
Qed.

(** On an array without [null] the two comparators sort alike. *)
Lemma sink_cells f o element : forall revPrefix,
  sink (compareCells f o) (Some element) (map Some revPrefix) =
  option_map (map Some)
    (sink (fun a b => ret (compareCustomers f o a b)) element revPrefix).
Proof.
  induction revPrefix as [| tmp rest IH]; simpl; [reflexivity |].
  destruct (0 <? compareCustomers f o tmp element); [| reflexivity].
  rewrite IH.
  now destruct (sink (fun a b => ret (compareCustomers f o a b)) element rest).
Qed.

Lemma sort_loop_cells f o a : forall revPrefix,
  sort_loop (compareCells f o) (map Some a) (map Some revPrefix) =
  option_map (map Some)
    (sort_loop (fun a b => ret (compareCustomers f o a b)) a revPrefix).
Proof.
  induction a as [| element a' IH]; intros revPrefix; simpl; [reflexivity |].
  rewrite sink_cells.
  destruct (sink (fun a b => ret (compareCustomers f o a b)) element revPrefix)
    as [p |]; simpl; [apply IH | reflexivity].
Qed.

Lemma array_sort_cells f o a :
  array_sort (compareCells f o) (map Some a) =
  option_map (map Some)
    (array_sort (fun a b => ret (compareCustomers f o a b)) a).
Proof.
  unfold array_sort. change (@nil (option customer)) with (map (@Some customer) []).
  rewrite (sort_loop_cells f o a []).
  destruct (sort_loop (fun a b => ret (compareCustomers f o a b)) a [])
    as [p |]; simpl; [| reflexivity].
  unfold ret. now rewrite map_rev.
Qed.





(** ** Facts about [null] filtering *)

Lemma dropNull_Some l : dropNull (map Some l) = l.
Proof. induction l as [| c l IH]; simpl; [reflexivity | now rewrite IH]. Qed.

Lemma dropNull_perm l l' :
  Permutation l l' -> Permutation (dropNull l) (dropNull l').
Proof.
  induction 1 as [| [c |] l l' _ IH | [c |] [d |] l | l l' l'' _ IH1 _ IH2];
    simpl; auto using Permutation_refl, perm_swap.
  now rewrite IH1.
Qed.

Lemma dropNull_sorted f o l :
  Sorted (cellsInOrder f o) l -> Sorted (inOrder f o) (dropNull l).
Proof.
  induction 1 as [| a l Hs IH Hhd]; simpl; [constructor |].
  destruct a as [a |].
  - constructor; [assumption |].
    destruct Hhd as [| b l Hab]; simpl; [constructor |].
    destruct b as [b |]; [now constructor | contradiction].
  - destruct Hhd as [| b l Hab]; [constructor | contradiction].
Qed.

(** ** The window of the no-search path *)

Lemma windowCell_covered st now i :
  0 <= i -> (i < ACTUAL_STORED -> i < Js.len st) ->
  windowCell st now i = Some (windowRecord st now i).
Proof.
  intros Hi Hcov. unfold windowCell, windowRecord.
  destruct (nth_error st (Z.to_nat i)) as [c |] eqn:E.
  - now rewrite (nth_error_nth _ _ _ E).
  - apply nth_error_None in E. rewrite nth_overflow by exact E.
    destruct (Z.ltb_spec i ACTUAL_STORED) as [Hk | Hk]; [| reflexivity].
    specialize (Hcov Hk). unfold Js.len in Hcov. lia.
Qed.

Lemma window_covered st now start end_ :
  0 <= start ->
  (start < ACTUAL_STORED -> Z.min end_ ACTUAL_STORED <= Js.len st) ->
  map (windowCell st now) (Js.zrange start end_) =
  map Some (map (windowRecord st now) (Js.zrange start end_)).
Proof.
  intros Hs Hcov. rewrite map_map. apply map_ext_in.
  intros i Hi. apply zrange_In in Hi.
  apply windowCell_covered; lia.
Qed.

Lemma Some_eq {A : Type} (a b : A) : Some a = Some b -> a = b.
Proof. congruence. Qed.

Lemma windowRecord_id st now i :
  0 <= i -> densePrefix st -> id (windowRecord st now i) = i + 1.
Proof.
  intros Hi Hd. unfold windowRecord.
  destruct (Nat.ltb_spec (Z.to_nat i) (List.length st)) as [Hlt | Hge].
  - assert (E : nth_error (map id st) (Z.to_nat i)
                = Some (id (nth (Z.to_nat i) st (generateVirtualCustomer now (i + 1))))).
    { rewrite nth_error_map.
      now rewrite (nth_error_nth' st (generateVirtualCustomer now (i + 1)) Hlt). }
    rewrite Hd, zrange_nth_error in E by (unfold Js.len; lia).
    apply Some_eq in E. rewrite <- E. lia.
  - now rewrite nth_overflow by exact Hge.
Qed.

Lemma windowRecord_persisted st now i c :
  nth_error st (Z.to_nat i) = Some c -> windowRecord st now i = c.
Proof. intros E. unfold windowRecord. now apply nth_error_nth. Qed.

Lemma windowRecord_virtual st now i :
  0 <= i -> Js.len st <= i ->
  windowRecord st now i = generateVirtualCustomer now (i + 1).
Proof.
  intros Hi Hlen. unfold windowRecord. apply nth_overflow.
  unfold Js.len in Hlen. lia.
Qed.

(** ** The no-search path of [getCustomers] *)

Lemma getCustomers_noSearch_id st now q :
  falsy (search q) = true -> sortBy q = SortId -> 0 <= offset q ->
  getCustomers st now q =
  Some {| data := dropNull (map (windowCell st now)
                              (Js.zrange (offset q) (windowEnd q)));
          total := VIRTUAL_TOTAL;
          hasMore := windowEnd q <? VIRTUAL_TOTAL |}.
Proof.
  intros Hf Hs Ho. unfold getCustomers. rewrite Hf, Hs.
  rewrite merged_cells by assumption. reflexivity.
Qed.

Lemma getCustomers_noSearch st now q r :
  falsy (search q) = true -> 0 <= offset q ->
  getCustomers st now q = Some r ->
  total r = VIRTUAL_TOTAL /\
  hasMore r = (windowEnd q <? VIRTUAL_TOTAL) /\
  Permutation
    (dropNull (map (windowCell st now) (Js.zrange (offset q) (windowEnd q))))
    (data r) /\
  (sortBy q <> SortId -> Sorted (inOrder (sortBy q) (sortOrder q)) (data r)).
Proof.
  intros Hf Ho H. unfold getCustomers in H. rewrite Hf in H.
  rewrite merged_cells in H by assumption. fold (windowEnd q) in H.
  set (cells := map (windowCell st now) (Js.zrange (offset q) (windowEnd q))) in *.
  assert (Hsort : forall sorted,
    array_sort (compareCells (sortBy q) (sortOrder q)) cells = Some sorted ->
    Permutation (dropNull cells) (dropNull sorted) /\
    Sorted (inOrder (sortBy q) (sortOrder q)) (dropNull sorted)).
  { intros sorted E. split.
    - apply dropNull_perm. eapply array_sort_perm; eassumption.
    - apply dropNull_sorted.
      eapply array_sort_sorted;
        [apply compareCells_shift | apply compareCells_stay | exact E]. }
  destruct (sortBy q) eqn:Es;
    [ simpl in H; injection H as <-; simpl;
      repeat split; [apply Permutation_refl | congruence]
    | .. ];
    (destruct (array_sort _ cells) as [sorted |] eqn:E; [| discriminate];
     simpl in H; injection H as <-; simpl;
     destruct (Hsort sorted eq_refl) as [Hp Hsd];
     repeat split; try assumption; intros _; assumption).
Qed.

(** With every window cell below [ACTUAL_STORED] covered by the store, the
    sort of the no-search path returns. *)
Lemma getCustomers_noSearch_returns st now q :
  falsy (search q) = true -> 0 <= offset q ->
  (offset q < ACTUAL_STORED ->
   Z.min (windowEnd q) ACTUAL_STORED <= Js.len st) ->
  exists r, getCustomers st now q = Some r.
Proof.
  intros Hf Ho Hcov. unfold getCustomers. rewrite Hf.
  rewrite merged_cells by assumption. fold (windowEnd q).
  rewrite window_covered by assumption.
  destruct (sortBy q); simpl; eauto;
    rewrite array_sort_cells;
    match goal with
    | |- context [array_sort (fun a b => ret (?f a b)) ?l] =>
        destruct (array_sort_total f l) as [sorted ->]
    end; simpl; eauto.
Qed.



(** ** The search path of [getCustomers] *)

Lemma scanSearch_spec search searchLower cursor : forall results,
  scanSearch search searchLower cursor results =
  results ++ filter (matches search searchLower) cursor.
Proof.
  induction cursor as [| customer next IH]; intros results; simpl.
  - now rewrite app_nil_r.
  - rewrite IH. destruct (matches search searchLower customer);
      [now rewrite <- app_assoc | reflexivity].
Qed.

Lemma slice_window {A : Type} (a : list A) offset limit :
  0 <= offset -> 0 <= limit ->
  Js.slice a offset (offset + limit) =
  firstn (Z.to_nat limit) (skipn (Z.to_nat offset) a).
Proof.
  intros Ho Hl. unfold Js.slice, Js.len. cbv zeta.
  destruct (Z.ltb_spec offset 0); [lia |].
  destruct (Z.ltb_spec (offset + limit) 0); [lia |].
  destruct (Z.le_gt_cases (Z.of_nat (List.length a)) offset) as [Hout | Hin].
  - rewrite !skipn_all2 by lia. now rewrite !firstn_nil.
  - rewrite (Z.min_l offset) by lia.
    destruct (Z.le_gt_cases (offset + limit) (Z.of_nat (List.length a))).
    + rewrite (Z.min_l (offset + limit)) by lia. f_equal. lia.
    + rewrite (Z.min_r (offset + limit)) by lia.
      rewrite !firstn_all2; [reflexivity | |]; rewrite length_skipn; lia.
Qed.

Lemma getCustomers_search st now q :
  falsy (search q) = false ->
  exists sorted,
    getCustomers st now q =
    Some {| data := Js.slice sorted (offset q) (offset q + limit q);
            total := Js.len sorted;
            hasMore := offset q + limit q <? Js.len sorted |} /\
    Permutation
      (filter (matches (search q) (Js.toLowerCase (search q))) st) sorted /\
    Sorted (inOrder (sortBy q) (sortOrder q)) sorted.
Proof.
  intros Hf. unfold getCustomers. rewrite Hf.
  rewrite scanSearch_spec. simpl.
  set (found := filter (matches (search q) (Js.toLowerCase (search q))) st).
  destruct (array_sort_total (compareCustomers (sortBy q) (sortOrder q)) found)
    as [sorted E].
  exists sorted. rewrite E. simpl. split; [reflexivity |]. split.
  - eapply array_sort_perm; exact E.
  - eapply array_sort_sorted; [| | exact E].
    + intros tmp element order H Hpos. injection H as <-.
      now apply compareCustomers_shift.
    + intros tmp element order H Hneg. injection H as <-.
      now apply compareCustomers_stay.
Qed.

(** ** Facts about strings *)

Lemma prefix_allChars P t : forall s,
  String.prefix t s = true -> allChars P s = true -> allChars P t = true.
Proof.
  induction t as [| a t IH]; intros s Hp Hs; simpl; [reflexivity |].
  destruct s as [| b s]; simpl in *; [discriminate |].
  destruct (ascii_dec a b) as [-> |]; [| discriminate].
  apply andb_true_iff in Hs as [Hb Hs].
  rewrite Hb. simpl. eapply IH; eassumption.
Qed.

(** A substring is made of characters of the string. *)
Lemma includes_allChars P t : forall s,
  Js.includes s t = true -> allChars P s = true -> allChars P t = true.
Proof.
  induction s as [| c s IH]; intros Hi Hs.
  - cbn [Js.includes] in Hi.
    destruct (String.prefix t "") eqn:E; [| discriminate].
    eapply prefix_allChars; eassumption.
  - cbn [Js.includes] in Hi.
    destruct (String.prefix t (String c s)) eqn:E.
    + eapply prefix_allChars; eassumption.
    + simpl in Hs. apply andb_true_iff in Hs as [_ Hs]. now apply IH.
Qed.

Lemma upper_not_plain c :
  Js.is_upper c = true ->
  plainChar c = false /\ plainChar (Js.lower_char c) = false.
Proof.
  destruct c as [[] [] [] [] [] [] [] []]; vm_compute; intros H;
    try discriminate H; split; reflexivity.
Qed.

Lemma lower_char_idem c : Js.lower_char (Js.lower_char c) = Js.lower_char c.
Proof. destruct c as [[] [] [] [] [] [] [] []]; reflexivity. Qed.

Lemma toLowerCase_idem s : Js.toLowerCase (Js.toLowerCase s) = Js.toLowerCase s.
Proof.
  induction s as [| c s IH]; simpl; [reflexivity |].
  now rewrite lower_char_idem, IH.
Qed.

Lemma falsy_toLowerCase s : falsy (Js.toLowerCase s) = falsy s.
Proof. now destruct s. Qed.

(** Lowercasing either leaves a term unchanged, or the term and its
    lowercase form both hold a character that no plain phone has. *)
Lemma toLowerCase_fixed_or_letter s :
  Js.toLowerCase s = s \/
  (allChars plainChar s = false /\ allChars plainChar (Js.toLowerCase s) = false).
Proof.
  induction s as [| c s IH]; simpl; [now left |].
  destruct (Js.is_upper c) eqn:Eu.
  - right. destruct (upper_not_plain c Eu) as [H1 H2].
    now rewrite H1, H2.
  - assert (Hc : Js.lower_char c = c) by (unfold Js.lower_char; now rewrite Eu).
    rewrite Hc. destruct IH as [-> | [H1 H2]]; [now left | right].
    rewrite H1, H2. now rewrite !andb_false_r.
Qed.

Lemma includes_plain_lower p term :
  allChars plainChar p = true ->
  Js.includes p term = Js.includes p (Js.toLowerCase term).
Proof.
  intros Hp. destruct (toLowerCase_fixed_or_letter term) as [-> | [H1 H2]];
    [reflexivity |].
  destruct (Js.includes p term) eqn:E1.
  - apply (includes_allChars plainChar) in E1; [congruence | assumption].
  - destruct (Js.includes p (Js.toLowerCase term)) eqn:E2; [| reflexivity].
    apply (includes_allChars plainChar) in E2; [congruence | assumption].
Qed.

Lemma matches_lower term c :
  plainPhone c ->
  matches term (Js.toLowerCase term) c =
  matches (Js.toLowerCase term) (Js.toLowerCase (Js.toLowerCase term)) c.
Proof.
  intros Hp. unfold matches. rewrite toLowerCase_idem.
  now rewrite (includes_plain_lower (phone c) term Hp).
Qed.

Lemma string_app_assoc (a b c : string) :
  ((a ++ b) ++ c)%string = (a ++ b ++ c)%string.
Proof. induction a as [| x a IH]; simpl; [reflexivity | now rewrite IH]. Qed.

Lemma prefix_iff t : forall s,
  String.prefix t s = true <-> exists b, s = (t ++ b)%string.
Proof.
  induction t as [| x t IH]; intros s; simpl.
  - split; [intros _; now exists s | intros _; now destruct s].
  - destruct s as [| y s]; [split; [discriminate | intros (b & E); discriminate E] |].
    cbn [String.prefix]. destruct (ascii_dec x y) as [<- | Hne].
    + rewrite IH. split; intros (b & E); exists b; [now rewrite E | now injection E].
    + split; [discriminate | intros (b & E); injection E as E1 _; congruence].
Qed.

Lemma includes_iff t : forall s,
  Js.includes s t = true <-> exists a b, s = (a ++ t ++ b)%string.
Proof.
  induction s as [| x s IH]; cbn [Js.includes].
  - destruct (String.prefix t "") eqn:E.
    + split; [intros _ | reflexivity].
      apply prefix_iff in E as (b & E). now exists ""%string, b.
    + split; [discriminate |]. intros (a & b & Ha).
      destruct a; [| discriminate Ha]. simpl in Ha.
      assert (String.prefix t "" = true) by (apply prefix_iff; now exists b).
      congruence.
  - destruct (String.prefix t (String x s)) eqn:E.
    + split; [intros _ | reflexivity].
      apply prefix_iff in E as (b & E). now exists ""%string, b.
    + rewrite IH. split.
      * intros (a & b & ->). now exists (String x a), b.
      * intros (a & b & Ha). destruct a as [| y a]; simpl in Ha.
        -- assert (String.prefix t (String x s) = true)
             by (apply prefix_iff; now exists b).
           congruence.
        -- injection Ha as _ ->. now exists a, b.
Qed.

(** The filter of the search path decides the matching rule of the
    specification. *)
Lemma matches_rule term c :
  matches term (Js.toLowerCase term) c = true <-> matchesRule term c.
Proof.
  unfold matches, matchesRule, contains.
  rewrite !orb_true_iff, !includes_iff. tauto.
Qed.

Lemma filter_matchingSet term st :
  matchingSet term st (filter (matches term (Js.toLowerCase term)) st).
Proof.
  induction st as [| c st IH]; simpl; [constructor |].
  destruct (matches term (Js.toLowerCase term) c) eqn:E.
  - apply matching_keep; [now apply matches_rule | exact IH].
  - apply matching_skip; [| exact IH].
    intros H. apply matches_rule in H. congruence.
Qed.

(** The matching set of a store is determined by the rule. *)
Lemma matchingSet_unique term st m :
  matchingSet term st m -> forall m', matchingSet term st m' -> m = m'.
Proof.
  induction 1 as [| c st m Hc _ IH | c st m Hc _ IH]; intros m' H';
    inversion H'; subst; try contradiction; try reflexivity.
  - f_equal. now apply IH.
  - now apply IH.
Qed.

(** ** Facts about the decimal text of an id *)

Lemma String_of_inj a b : Js.String_of a = Js.String_of b -> a = b.
Proof.
  unfold Js.String_of. intros H.
  apply (f_equal NilEmpty.int_of_string) in H.
  rewrite !NilEmpty.isi in H.
  apply DecimalZ.to_int_inj. congruence.
Qed.

Lemma string_of_uint_digits d :
  allChars Js.is_digit (NilEmpty.string_of_uint d) = true.
Proof. induction d; simpl; auto. Qed.

Lemma string_of_uint_nonempty d :
  d <> Decimal.Nil -> NilEmpty.string_of_uint d <> EmptyString.
Proof. destruct d; simpl; congruence. Qed.

(** The text of a positive id is a non-empty run of digits. *)
Lemma String_of_positive n :
  0 < n ->
  allChars Js.is_digit (Js.String_of n) = true /\
  Js.String_of n <> EmptyString.
Proof.
  intros Hn. destruct n as [| p | p]; try lia.
  unfold Js.String_of. simpl. split.
  - apply string_of_uint_digits.
  - apply string_of_uint_nonempty, DecimalPos.Unsigned.to_uint_nonnil.
Qed.

Lemma takeDigits_app d c rest :
  allChars Js.is_digit d = true -> Js.is_digit c = false ->
  takeDigits (d ++ String c rest)%string = d.
Proof.
  intros Hd Hc. induction d as [| x d IH]; simpl in *.
  - now rewrite Hc.
  - apply andb_true_iff in Hd as [Hx Hd]. rewrite Hx. now rewrite IH.
Qed.

Lemma embeddedDigits_skip p s :
  allChars notDigit p = true ->
  embeddedDigits (p ++ s)%string = embeddedDigits s.
Proof.
  intros Hp. induction p as [| x p IH]; simpl in *; [reflexivity |].
  apply andb_true_iff in Hp as [Hx Hp].
  unfold notDigit in Hx. apply negb_true_iff in Hx. rewrite Hx. now apply IH.
Qed.

Lemma embeddedDigits_run d c rest :
  allChars Js.is_digit d = true -> d <> EmptyString -> Js.is_digit c = false ->
  embeddedDigits (d ++ String c rest)%string = d.
Proof.
  intros Hd Hne Hc. destruct d as [| x d]; [congruence |].
  pose proof (takeDigits_app (String x d) c rest Hd Hc) as Ht.
  simpl in Hd. apply andb_true_iff in Hd as [Hx _].
  cbn [append embeddedDigits] in *. now rewrite Hx in *.
Qed.

(** The lowercased entries of the name tables hold no digit. *)
Lemma index_digit_free table i :
  forallb (fun s => allChars notDigit (Js.toLowerCase s)) table = true ->
  allChars notDigit (Js.toLowerCase (Js.index table i)) = true.
Proof.
  intros Ht. unfold Js.index.
  destruct (i <? 0); [reflexivity |].
  destruct (nth_in_or_default (Z.to_nat i) table "undefined"%string) as [Hin | ->];
    [| reflexivity].
  rewrite forallb_forall in Ht. now apply Ht.
Qed.

Lemma allChars_app P a b :
  allChars P a = true -> allChars P b = true -> allChars P (a ++ b)%string = true.
Proof.
  intros Ha Hb. induction a as [| x a IH]; simpl in *; [assumption |].
  apply andb_true_iff in Ha as [Hx Ha]. rewrite Hx. now apply IH.
Qed.

(** The email address of a generated record embeds the decimal text of the
    id between a digit-free name part and the ['@']. *)
Lemma generateCustomer_email_digits now n :
  0 < n -> embeddedDigits (email (generateCustomer now n)) = Js.String_of n.
Proof.
  intros Hn. destruct (String_of_positive n Hn) as [Hd Hne].
  cbn [generateCustomer email].
  rewrite embeddedDigits_skip.
  - cbn [append]. now apply embeddedDigits_run.
  - repeat apply allChars_app;
      try (apply index_digit_free; reflexivity); reflexivity.
Qed.

(** ** Facts about stored phones *)

Lemma repeat_char_all P c n : P c = true -> allChars P (Js.repeat_char c n) = true.
Proof. intros Hc. induction n as [| n IH]; simpl; [reflexivity | now rewrite Hc]. Qed.

Lemma allChars_weaken (P Q : ascii -> bool) s :
  (forall c, P c = true -> Q c = true) ->
  allChars P s = true -> allChars Q s = true.
Proof.
  intros HPQ. induction s as [| c s IH]; simpl; [reflexivity |].
  intros H. apply andb_true_iff in H as [Hc Hs].
  now rewrite (HPQ c Hc), IH.
Qed.

Lemma String_of_nonneg_digits n :
  0 <= n -> allChars Js.is_digit (Js.String_of n) = true.
Proof.
  intros Hn. destruct n as [| p | p]; [reflexivity | | lia].
  now apply String_of_positive.
Qed.

Lemma generateCustomer_plainPhone now n :
  0 <= n -> plainPhone (generateCustomer now n).
Proof.
  intros Hn. unfold plainPhone. cbn [generateCustomer phone].
  apply (allChars_app plainChar "+1"); [reflexivity |].
  unfold Js.padStart. apply allChars_app.
  - now apply repeat_char_all.
  - apply (allChars_weaken Js.is_digit).
    + intros c Hc. unfold plainChar. now rewrite Hc.
    + now apply String_of_nonneg_digits.
Qed.

Lemma put_Forall (P : customer -> Prop) c : forall st,
  P c -> Forall P st -> Forall P (put c st).
Proof.
  induction st as [| d rest IH]; intros Hc Hst; simpl.
  - now constructor.
  - inversion Hst; subst.
    destruct (id c <? id d); [now repeat constructor |].
    destruct (id c =? id d); constructor; auto.
Qed.

Lemma saveCustomerBatches_Forall (P : customer -> Prop) batches : forall st,
  Forall (Forall P) batches -> Forall P st ->
  Forall P (saveCustomerBatches batches st).
Proof.
  unfold saveCustomerBatches.
  induction batches as [| batch rest IH]; intros st Hb Hst; simpl;
    [assumption |].
  inversion Hb as [| ? ? Hbatch Hrest]; subst.
  apply IH; [assumption |].
  clear - Hbatch Hst. revert st Hst.
  induction batch as [| c batch IHb]; intros st Hst; simpl; [assumption |].
  inversion Hbatch; subst. apply IHb; [assumption |].
  now apply put_Forall.
Qed.

Lemma batches_from_Forall (P : customer -> Prop) now totalCount batchSize fuel :
  forall i,
  (forall n, i <= n -> P (generateCustomer now n)) -> 0 <= batchSize ->
  Forall (Forall P) (batches_from fuel now i totalCount batchSize).
Proof.
  induction fuel as [| fuel IH]; intros i HP Hb; simpl; [constructor |].
  destruct (i <=? totalCount); [| constructor].
  constructor.
  - apply Forall_map, Forall_forall. intros n Hn.
    apply zrange_In in Hn. apply HP. lia.
  - apply IH; [| assumption]. intros n Hn. apply HP. lia.
Qed.

(** Every phone that ingestion writes is plain. *)
Lemma ingested_plainPhone now totalCount batchSize :
  0 <= batchSize ->
  Forall plainPhone
    (saveCustomerBatches (generateCustomerBatches now totalCount batchSize) []).
Proof.
  intros Hb. apply saveCustomerBatches_Forall; [| constructor].
  apply batches_from_Forall; [| assumption].
  intros n Hn. apply generateCustomer_plainPhone. lia.
Qed.

(** ** Ingestion *)

Lemma zrange_app a b c :
  a <= b -> b <= c -> Js.zrange a b ++ Js.zrange b c = Js.zrange a c.
Proof.
  intros Hab Hbc. remember (Z.to_nat (b - a)) as n eqn:En.
  revert a En Hab. induction n as [| n IH]; intros a En Hab.
  - replace a with b by lia. now rewrite zrange_empty by lia.
  - rewrite (zrange_cons a b), (zrange_cons a c) by lia.
    simpl. f_equal. apply IH; lia.
Qed.

(** A record whose key is above every stored key is appended. *)
Lemma put_last c : forall st,
  Forall (fun d => id d < id c) st -> put c st = st ++ [c].
Proof.
  induction st as [| d rest IH]; intros H; simpl; [reflexivity |].
  inversion H; subst.
  destruct (Z.ltb_spec (id c) (id d)); [lia |].
  destruct (Z.eqb_spec (id c) (id d)); [lia |].
  now rewrite IH.
Qed.

Lemma put_range now (n : nat) : forall a st,
  Forall (fun d => id d < a) st ->
  fold_left (fun s c => put c s)
    (map (generateCustomer now) (Js.zrange a (a + Z.of_nat n))) st =
  st ++ map (generateCustomer now) (Js.zrange a (a + Z.of_nat n)).
Proof.
  induction n as [| n IH]; intros a st Hst.
  - rewrite zrange_empty by lia. simpl. now rewrite app_nil_r.
  - rewrite zrange_cons by lia. cbn [map fold_left].
    rewrite put_last by exact Hst.
    replace (a + Z.of_nat (S n)) with (a + 1 + Z.of_nat n) by lia.
    rewrite IH.
    + now rewrite <- app_assoc.
    + apply Forall_app. split.
      * eapply Forall_impl; [| exact Hst]. simpl. intros d Hd. lia.
      * repeat constructor. simpl. lia.
Qed.

Lemma saveCustomerBatches_range now totalCount batchSize (fuel : nat) :
  forall i st,
  1 <= batchSize ->
  (Z.to_nat (totalCount + 1 - i) <= fuel)%nat ->
  Forall (fun d => id d < i) st ->
  saveCustomerBatches (batches_from fuel now i totalCount batchSize) st =
  st ++ map (generateCustomer now) (Js.zrange i (totalCount + 1)).
Proof.
  unfold saveCustomerBatches.
  induction fuel as [| fuel IH]; intros i st Hb Hfuel Hst.
  - rewrite zrange_empty by lia. simpl. now rewrite app_nil_r.
  - cbn [batches_from].
    destruct (Z.leb_spec i totalCount) as [Hle | Hgt].
    + cbn [fold_left].
      set (end_ := Z.min (i + batchSize) (totalCount + 1)).
      replace end_ with (i + Z.of_nat (Z.to_nat (end_ - i))) by lia.
      rewrite put_range by exact Hst.
      replace (i + Z.of_nat (Z.to_nat (end_ - i))) with end_ by lia.
      rewrite IH; [| assumption | lia |].
      * rewrite <- app_assoc, <- map_app. do 2 f_equal.
        destruct (Z.le_gt_cases (i + batchSize) (totalCount + 1)).
        -- subst end_. rewrite Z.min_l by lia. apply zrange_app; lia.
        -- subst end_. rewrite Z.min_r by lia.
           rewrite (zrange_empty (i + batchSize)) by lia. apply app_nil_r.
      * apply Forall_app. split.
        -- eapply Forall_impl; [| exact Hst]. simpl. intros d Hd. lia.
        -- apply Forall_map, Forall_forall. intros n Hn.
           apply zrange_In in Hn. simpl. lia.
    + rewrite zrange_empty by lia. simpl. now rewrite app_nil_r.
Qed.

(** Batched ingestion into an empty store writes exactly the records
    [1 .. totalCount], in key order. *)
Lemma ingestion_generateCustomers now totalCount batchSize :
  1 <= batchSize ->
  saveCustomerBatches (generateCustomerBatches now totalCount batchSize) [] =
  generateCustomers now totalCount.
Proof.
  intros Hb. unfold generateCustomerBatches, generateCustomers.
  rewrite saveCustomerBatches_range; [reflexivity | assumption | lia | constructor].
Qed.

Lemma generateCustomers_len now totalCount :
  Js.len (generateCustomers now totalCount) = Z.max 0 totalCount.
Proof.
  unfold Js.len, generateCustomers. rewrite length_map, zrange_length. lia.
Qed.

Lemma generateCustomers_dense now totalCount :
  densePrefix (generateCustomers now totalCount).
Proof.
  unfold densePrefix. rewrite generateCustomers_len.
  unfold generateCustomers. rewrite map_map. cbn [generateCustomer id].
  rewrite map_id.
  destruct (Z.le_gt_cases 0 totalCount).
  - now rewrite Z.max_r by lia.
  - rewrite Z.max_l by lia. now rewrite !zrange_empty by lia.
Qed.

(** The store the application starts from: ids [1 .. 10000] without gap,
    [ACTUAL_STORED] records, none with an id above [ACTUAL_STORED], every
    phone plain. *)
Lemma initializeApp_store now :
  initializeApp now [] = generateCustomers now 10000 /\
  densePrefix (initializeApp now []) /\
  Js.len (initializeApp now []) = ACTUAL_STORED /\
  Forall (fun c => id c <= ACTUAL_STORED) (initializeApp now []) /\
  Forall plainPhone (initializeApp now []).
Proof.
  assert (E : initializeApp now [] = generateCustomers now 10000)
    by (change (initializeApp now [])
          with (saveCustomerBatches (generateCustomerBatches now 10000 1000) []);
        apply ingestion_generateCustomers; lia).
  rewrite E. split; [reflexivity |]. split; [apply generateCustomers_dense |].
  split; [rewrite generateCustomers_len; reflexivity |]. split.
  - apply Forall_map, Forall_forall. intros n Hn.
    apply zrange_In in Hn. cbn [generateCustomer id]. unfold ACTUAL_STORED. lia.
  - apply Forall_map, Forall_forall. intros n Hn.
    apply zrange_In in Hn. apply generateCustomer_plainPhone. lia.
Qed.

(** ** The properties of the specification *)

(** *** The generator *)

(** C8.  The generator is a function of the id and the clock reading: two
    runs at the same reference time give the same record, and two runs at
    different reference times agree on the id, name, phone, email, score,
    addedBy and avatar; the timestamp is the reference time minus
    [id % 365] days. *)
Theorem generateCustomer_deterministic (n now1 now2 : Z) :
  (now1 = now2 -> generateCustomer now1 n = generateCustomer now2 n) /\
  id (generateCustomer now1 n) = id (generateCustomer now2 n) /\
  name (generateCustomer now1 n) = name (generateCustomer now2 n) /\
  phone (generateCustomer now1 n) = phone (generateCustomer now2 n) /\
  email (generateCustomer now1 n) = email (generateCustomer now2 n) /\
  score (generateCustomer now1 n) = score (generateCustomer now2 n) /\
  addedBy (generateCustomer now1 n) = addedBy (generateCustomer now2 n) /\
  avatar (generateCustomer now1 n) = avatar (generateCustomer now2 n) /\
  Js.getTime (lastMessageAt (generateCustomer now1 n))
    = now1 - Js.rem n 365 * 86400000.
Proof.
  split; [now intros -> |].
  repeat split. simpl. lia.
Qed.

Lemma generateCustomer_deterministic_witness :
  generateCustomer 1700000000000 42 = generateCustomer 1700000000000 42 /\
  name (generateCustomer 0 42) = name (generateCustomer 1700000000000 42).
Proof.
  split.
  - apply (proj1 (generateCustomer_deterministic 42 1700000000000 1700000000000)).
    reflexivity.
  - apply (generateCustomer_deterministic 42 0 1700000000000).
Defined.

(** C9.  Two distinct positive ids never get the same email address: the
    decimal text of the id, embedded between the digit-free name part and
    the ['@'], determines the id. *)
Theorem generateCustomer_email_unique (now1 now2 id1 id2 : Z) :
  0 < id1 -> 0 < id2 -> id1 <> id2 ->
  email (generateCustomer now1 id1) <> email (generateCustomer now2 id2).
Proof.
  intros H1 H2 Hne Heq. apply Hne, String_of_inj.
  rewrite <- (generateCustomer_email_digits now1 id1 H1).
  rewrite <- (generateCustomer_email_digits now2 id2 H2).
  now rewrite Heq.
Qed.

Lemma generateCustomer_email_unique_witness :
  email (generateCustomer 0 1) <> email (generateCustomer 0 3585).
Proof.
  apply generateCustomer_email_unique; lia.
Defined.

(** *** Navigation *)

Section Navigation.
Import CustomerTable.

Lemma clamp_range total x :
  ITEMS_PER_PAGE <= total ->
  0 <= Z.max 0 (Z.min (total - ITEMS_PER_PAGE) x) <= total - ITEMS_PER_PAGE.
Proof. lia. Qed.

(** The values the specification lists for the scrollbar mapping. *)
Lemma scrollbarOffset_ends :
  scrollbarOffset 1000000 1 = 999970 /\ scrollbarOffset 1000000 0 = 0.
Proof. split; reflexivity. Qed.

(** C3, as the code has it.  With [ITEMS_PER_PAGE <= total], the scrollbar
    and the mouse wheel always produce an offset in
    [[0, total - ITEMS_PER_PAGE]]; keyboard stepping does so from a current
    offset that lies in that range; jump-to-row does not clamp from above:
    for a row in [[1, total]] it produces [row - 1], which lies in
    [[0, total - 1]]. *)
Theorem navigation_offsets (total : Z) :
  ITEMS_PER_PAGE <= total ->
  (forall percentage,
     0 <= scrollbarOffset total percentage <= total - ITEMS_PER_PAGE) /\
  (forall currentRow deltaY,
     0 <= wheelOffset total currentRow deltaY <= total - ITEMS_PER_PAGE) /\
  (forall currentRow e newOffset,
     0 <= currentRow - 1 <= total - ITEMS_PER_PAGE ->
     keyOffset total currentRow e = Some newOffset ->
     0 <= newOffset <= total - ITEMS_PER_PAGE) /\
  (forall rowNumber,
     1 <= rowNumber <= total ->
     jumpOffset total (Some rowNumber) = Some (rowNumber - 1) /\
     0 <= rowNumber - 1 <= total - 1).
Proof.
  intros Ht. split; [| split; [| split]].
  - intros percentage. apply clamp_range, Ht.
  - intros currentRow deltaY. apply clamp_range, Ht.
  - intros currentRow e newOffset Hcur Hkey.
    unfold keyOffset in Hkey. destruct (targetIsInput e); [discriminate |].
    unfold ITEMS_PER_PAGE in *.
    destruct (pressed e); inversion Hkey; lia.
  - intros rowNumber Hrow. split; [| lia].
    unfold jumpOffset.
    destruct (Z.leb_spec 1 rowNumber); [| lia].
    destruct (Z.leb_spec rowNumber total); [| lia].
    simpl. f_equal. lia.
Qed.

Lemma navigation_offsets_witness :
  0 <= wheelOffset 1000000 999990 1 <= 1000000 - ITEMS_PER_PAGE /\
  (keyOffset 1000000 999971 (KeyEvent false PageDown) = Some 999970 ->
   0 <= 999970 <= 1000000 - ITEMS_PER_PAGE) /\
  jumpOffset 1000000 (Some 1000000) = Some (1000000 - 1).
Proof.
  assert (Ht : ITEMS_PER_PAGE <= 1000000) by (unfold ITEMS_PER_PAGE; lia).
  destruct (navigation_offsets 1000000 Ht) as (_ & Hw & Hk & Hj).
  split; [apply Hw |]. split.
  - apply (Hk 999971 (KeyEvent false PageDown) 999970).
    unfold ITEMS_PER_PAGE. lia.
  - apply (Hj 1000000). lia.
Defined.

(** C3 fails for jump-to-row: jumping to the last row of the million yields
    offset 999999, beyond [total - ITEMS_PER_PAGE = 999970]. *)
Lemma jump_to_last_row_not_clamped :
  jumpOffset 1000000 (Some 1000000) = Some 999999 /\
  ~ (0 <= 999999 <= 1000000 - ITEMS_PER_PAGE).
Proof. split; [reflexivity | unfold ITEMS_PER_PAGE; lia]. Qed.

(** C7.  Jump-to-row maps a row in [[1, total]] to the offset [row - 1] and
    loads the page there; a row below 1 or above [total] (or an input that
    does not parse) is rejected: nothing is loaded and the state, with its
    page, current row and scroll position, is left as it was. *)
Theorem handleJumpToRow_spec (st : store) (now : Z) (s : state) (row : Z) :
  (1 <= row <= totalCount s ->
   jumpOffset (totalCount s) (Some row) = Some (row - 1) /\
   handleJumpToRow st now s (Some row) =
   loadCustomersAtOffset st now
     (setScrollPercentage s (js_div (row - 1) (totalCount s))) (row - 1)) /\
  (row < 1 \/ totalCount s < row ->
   jumpOffset (totalCount s) (Some row) = None /\
   handleJumpToRow st now s (Some row) = s) /\
  handleJumpToRow st now s None = s.
Proof.
  unfold handleJumpToRow, jumpOffset. repeat split.
  - destruct (Z.leb_spec 1 row); [| lia].
    destruct (Z.leb_spec row (totalCount s)); [| lia].
    simpl. f_equal. lia.
  - destruct (Z.leb_spec 1 row); [| lia].
    destruct (Z.leb_spec row (totalCount s)); [| lia].
    simpl. now replace (Z.max 0 (row - 1)) with (row - 1) by lia.
  - destruct (Z.leb_spec 1 row); [| reflexivity].
    destruct (Z.leb_spec row (totalCount s)); [lia | reflexivity].
  - destruct (Z.leb_spec 1 row); [| reflexivity].
    destruct (Z.leb_spec row (totalCount s)); [lia | reflexivity].
Qed.

Lemma handleJumpToRow_spec_witness :
  jumpOffset 1000000 (Some 1) = Some 0 /\
  handleJumpToRow [] 0 initialState (Some 1000001) = initialState /\
  handleJumpToRow [] 0 initialState (Some 0) = initialState.
Proof.
  destruct (handleJumpToRow_spec [] 0 initialState 1) as (Hin & _ & _).
  destruct (handleJumpToRow_spec [] 0 initialState 1000001) as (_ & Hout & _).
  destruct (handleJumpToRow_spec [] 0 initialState 0) as (_ & Hlow & _).
  split; [apply Hin; simpl; lia |].
  split; [apply Hout | apply Hlow]; simpl; lia.
Defined.
End Navigation.

(** *** The query engine without a search term *)

Lemma zrange_succ lo hi :
  map (fun i => i + 1) (Js.zrange lo hi) = Js.zrange (lo + 1) (hi + 1).
Proof.
  unfold Js.zrange. rewrite map_map.
  replace (hi + 1 - (lo + 1)) with (hi - lo) by lia.
  apply map_ext. intros k. lia.
Qed.

(** With the window cells below [ACTUAL_STORED] covered by the store, the
    page for [sortBy = id] is the window itself. *)
Lemma getCustomers_noSearch_covered st now off lim order :
  0 <= off ->
  (off < ACTUAL_STORED ->
   Z.min (Z.min (off + lim) VIRTUAL_TOTAL) ACTUAL_STORED <= Js.len st) ->
  getCustomers st now (Query off lim "" SortId order) =
  Some (Result
          (map (windowRecord st now)
             (Js.zrange off (Z.min (off + lim) VIRTUAL_TOTAL)))
          VIRTUAL_TOTAL
          (Z.min (off + lim) VIRTUAL_TOTAL <? VIRTUAL_TOTAL)).
Proof.
  intros Ho Hcov.
  rewrite (getCustomers_noSearch_id st now (Query off lim "" SortId order))
    by (reflexivity || assumption).
  unfold windowEnd. cbn [offset limit].
  now rewrite window_covered, dropNull_Some by assumption.
Qed.

(** On the store the application starts from, every window is served in
    full and its entry for index [i] has id [i + 1]. *)
Lemma initialized_page_ids now0 now offset limit order :
  0 <= offset -> 0 < limit ->
  exists page,
    getCustomers (initializeApp now0 []) now (Query offset limit "" SortId order) =
    Some (Result page VIRTUAL_TOTAL (offset + limit <? VIRTUAL_TOTAL)) /\
    map id page =
    Js.zrange (offset + 1) (Z.min (offset + limit) VIRTUAL_TOTAL + 1).
Proof.
  intros Ho Hl.
  destruct (initializeApp_store now0) as (_ & Hdense & Hlen & _).
  eexists. split.
  - rewrite getCustomers_noSearch_covered; [| assumption | rewrite Hlen; lia].
    do 2 f_equal.
    destruct (Z.ltb_spec (offset + limit) VIRTUAL_TOTAL);
      destruct (Z.ltb_spec (Z.min (offset + limit) VIRTUAL_TOTAL) VIRTUAL_TOTAL);
      lia || reflexivity.
  - rewrite map_map, <- zrange_succ.
    apply map_ext_in. intros i Hi. apply zrange_In in Hi.
    apply windowRecord_id; [lia | assumption].
Qed.

(** A window cell still [null] makes the comparator throw as soon as the
    window holds two cells: the query never resolves. *)
Lemma noSearch_sort_on_gap_throws :
  getCustomers [] 0 (Query 0 2 "" SortName Asc) = None /\
  getCustomers [] 0 (Query 0 1 "" SortName Asc) = Some (Result [] VIRTUAL_TOTAL true).
Proof. split; reflexivity. Qed.

(** C1, as the code has it.  A query with no search term and [sortBy = id]
    returns [total = 1,000,000] and the window
    [[offset, min(offset+limit, N))] cell by cell, the cells that are still
    [null] dropped: a cell below [ACTUAL_STORED] that the cursor does not
    reach is not synthesized.  When the store covers the part of the window
    below [ACTUAL_STORED], the page holds exactly [min(limit, N - offset)]
    records (none when [offset >= N]) and its entry for index [i] is the
    record the cursor yields at position [i], else the record
    [generateVirtualCustomer (i + 1)]; when moreover the stored ids are
    [1 .. n] without gap, that entry has id [i + 1]. *)
Theorem noSearch_id_page (st : store) (now offset limit : Z)
  (order : sortDirection) :
  0 <= offset -> 0 < limit ->
  exists page,
    getCustomers st now (Query offset limit "" SortId order) =
    Some (Result page VIRTUAL_TOTAL
            (Z.min (offset + limit) VIRTUAL_TOTAL <? VIRTUAL_TOTAL)) /\
    page = dropNull (map (windowCell st now)
              (Js.zrange offset (Z.min (offset + limit) VIRTUAL_TOTAL))) /\
    ((offset < ACTUAL_STORED ->
      Z.min (Z.min (offset + limit) VIRTUAL_TOTAL) ACTUAL_STORED <= Js.len st) ->
     page = map (windowRecord st now)
              (Js.zrange offset (Z.min (offset + limit) VIRTUAL_TOTAL)) /\
     Js.len page = Z.max 0 (Z.min limit (VIRTUAL_TOTAL - offset)) /\
     (densePrefix st ->
      map id page =
      Js.zrange (offset + 1) (Z.min (offset + limit) VIRTUAL_TOTAL + 1))).
Proof.
  intros Ho Hl.
  set (q := Query offset limit "" SortId order).
  set (end_ := Z.min (offset + limit) VIRTUAL_TOTAL).
  exists (dropNull (map (windowCell st now) (Js.zrange offset end_))).
  split; [| split; [reflexivity |]].
  - now rewrite (getCustomers_noSearch_id st now q).
  - intros Hcov.
    rewrite window_covered, dropNull_Some by assumption.
    split; [reflexivity |]. split.
    + unfold Js.len. rewrite length_map, zrange_length. subst end_. lia.
    + intros Hd. rewrite map_map, <- zrange_succ.
      apply map_ext_in. intros i Hi. apply zrange_In in Hi.
      apply windowRecord_id; [lia | assumption].
Qed.

Lemma noSearch_id_page_witness :
  exists page,
    getCustomers (generateCustomers 0 3) 0 (Query 1 2 "" SortId Asc) =
    Some (Result page VIRTUAL_TOTAL true) /\
    map id page = [2; 3].
Proof.
  destruct (noSearch_id_page (generateCustomers 0 3) 0 1 2 Asc)
    as (page & Hget & _ & Hcov); [lia | lia |].
  exists page. split; [exact Hget |].
  destruct Hcov as (_ & _ & Hid); [vm_compute; discriminate |].
  apply Hid. reflexivity.
Defined.

(** C1 fails on a store that holds fewer than [ACTUAL_STORED] records: after
    the first batch of 1000 only, the window of 30 at offset 990 holds the
    ten records 991 .. 1000; the ids 1001 .. 1020 are not synthesized and
    the page is twenty records short. *)
Lemma noSearch_unwritten_not_synthesized :
  exists r,
    getCustomers
      (saveCustomerBatches (firstn 1 (generateCustomerBatches 0 10000 1000)) [])
      0 (Query 990 30 "" SortId Asc) = Some r /\
    map id (data r) = [991; 992; 993; 994; 995; 996; 997; 998; 999; 1000] /\
    Js.len (data r) <> Z.min 30 (VIRTUAL_TOTAL - 990).
Proof.
  eexists. split; [vm_compute; reflexivity |]. split; [reflexivity |].
  vm_compute. discriminate.
Qed.

(** C2, as the code has it.  Beyond the persisted prefix the no-search path
    returns the records of its own synthesizer [generateVirtualCustomer],
    which agrees with [generateCustomer] at the same reference time on the
    id, phone, score, avatar and timestamp; name, email and addedBy are drawn
    from the synthesizer's own shorter tables. *)
Theorem noSearch_beyond_prefix (st : store) (now offset limit : Z)
  (order : sortDirection) :
  ACTUAL_STORED <= offset -> 0 < limit -> Js.len st <= ACTUAL_STORED ->
  getCustomers st now (Query offset limit "" SortId order) =
  Some (Result
          (map (generateVirtualCustomer now)
             (Js.zrange (offset + 1) (Z.min (offset + limit) VIRTUAL_TOTAL + 1)))
          VIRTUAL_TOTAL
          (Z.min (offset + limit) VIRTUAL_TOTAL <? VIRTUAL_TOTAL)) /\
  (forall n,
     id (generateVirtualCustomer now n) = id (generateCustomer now n) /\
     phone (generateVirtualCustomer now n) = phone (generateCustomer now n) /\
     score (generateVirtualCustomer now n) = score (generateCustomer now n) /\
     avatar (generateVirtualCustomer now n) = avatar (generateCustomer now n) /\
     lastMessageAt (generateVirtualCustomer now n)
       = lastMessageAt (generateCustomer now n)).
Proof.
  intros Hk Hl Hst. split; [| intros n; repeat split].
  assert (Ho : 0 <= offset) by (unfold ACTUAL_STORED in Hk; lia).
  rewrite getCustomers_noSearch_covered by (assumption || lia).
  do 2 f_equal. rewrite <- zrange_succ, map_map.
  apply map_ext_in. intros i Hi. apply zrange_In in Hi.
  apply windowRecord_virtual; lia.
Qed.

Lemma noSearch_beyond_prefix_witness :
  getCustomers (generateCustomers 0 3) 0 (Query 50000 5 "" SortId Asc) =
  Some (Result (map (generateVirtualCustomer 0) [50001; 50002; 50003; 50004; 50005])
          VIRTUAL_TOTAL true).
Proof.
  apply (noSearch_beyond_prefix (generateCustomers 0 3) 0 50000 5 Asc);
    vm_compute; congruence.
Defined.

(** C2 fails as stated: the record served for id 10004 is not the one the
    generator makes for that id; name, email and addedBy all differ. *)
Lemma virtual_differs_from_generated :
  getCustomers (generateCustomers 0 3) 0 (Query 10003 1 "" SortId Asc) =
  Some (Result [generateVirtualCustomer 0 10004] VIRTUAL_TOTAL true) /\
  generateVirtualCustomer 0 10004 <> generateCustomer 0 10004 /\
  name (generateVirtualCustomer 0 10004) = "Robert Williams"%string /\
  name (generateCustomer 0 10004) = "Christopher Hall"%string /\
  email (generateVirtualCustomer 0 10004) = "robert.williams10004@outlook.com"%string /\
  email (generateCustomer 0 10004) = "christopher.hall10004@company.com"%string /\
  addedBy (generateVirtualCustomer 0 10004) = "Karthey Mishra"%string /\
  addedBy (generateCustomer 0 10004) = "Agent Taylor"%string.
Proof.
  split; [reflexivity |]. split; [| repeat split].
  intros H. apply (f_equal name) in H. vm_compute in H. discriminate.
Qed.



(** *** The query engine with a search term *)

Lemma In_firstn {A : Type} (x : A) n l : In x (firstn n l) -> In x l.
Proof.
  intros H. rewrite <- (firstn_skipn n l). apply in_or_app. now left.
Qed.

Lemma In_skipn {A : Type} (x : A) n l : In x (skipn n l) -> In x l.
Proof.
  intros H. rewrite <- (firstn_skipn n l). apply in_or_app. now right.
Qed.

(** C4.  A query with a search term returns the slice
    [[offset, offset+limit)] of the matching persisted records, the whole
    matching set sorted by the sort field and direction ([orderedBy]) before
    slicing; [total] is the size of the matching set.  The matching set
    ([matchingSet]) holds the records of the store that satisfy the rule
    [matchesRule]: the name or the email contains the term when the case of
    the letters is ignored, or the phone contains the term as typed.  Every
    page record is a matching record of the store, so none has an id above
    [ACTUAL_STORED] when the store has none. *)
Theorem search_page (st : store) (now : Z) (q : query) :
  falsy (search q) = false -> 0 <= offset q -> 0 < limit q ->
  exists matching sorted,
    matchingSet (search q) st matching /\
    Permutation matching sorted /\
    StronglySorted (orderedBy (sortBy q) (sortOrder q)) sorted /\
    getCustomers st now q =
    Some (Result
            (firstn (Z.to_nat (limit q)) (skipn (Z.to_nat (offset q)) sorted))
            (Js.len matching)
            (offset q + limit q <? Js.len matching)) /\
    (forall c,
       In c (firstn (Z.to_nat (limit q)) (skipn (Z.to_nat (offset q)) sorted)) ->
       In c st /\ matchesRule (search q) c) /\
    (Forall (fun c => id c <= ACTUAL_STORED) st ->
     Forall (fun c => id c <= ACTUAL_STORED)
       (firstn (Z.to_nat (limit q)) (skipn (Z.to_nat (offset q)) sorted))).
Proof.
  intros Hf Ho Hl.
  destruct (getCustomers_search st now q Hf) as (sorted & Hget & Hp & Hsd).
  exists (filter (matches (search q) (Js.toLowerCase (search q))) st), sorted.
  assert (Hlen : Js.len sorted
                 = Js.len (filter (matches (search q) (Js.toLowerCase (search q))) st))
    by (unfold Js.len; now rewrite (Permutation_length Hp)).
  assert (Hin : forall c,
            In c (firstn (Z.to_nat (limit q)) (skipn (Z.to_nat (offset q)) sorted)) ->
            In c st /\ matchesRule (search q) c).
  { intros c Hc. apply In_firstn, In_skipn in Hc.
    apply (Permutation_in _ (Permutation_sym Hp)) in Hc.
    apply filter_In in Hc as [Hst Hm]. split; [exact Hst |].
    now apply matches_rule. }
  split; [apply filter_matchingSet |].
  split; [exact Hp |].
  split; [now apply orderedBy_strongly |].
  split; [| split; [exact Hin |]].
  - rewrite Hget, slice_window, Hlen by lia. reflexivity.
  - intros Hst. apply Forall_forall. intros c Hc.
    rewrite Forall_forall in Hst. apply Hst. now apply Hin.
Qed.

Lemma search_page_witness :
  exists matching sorted,
    matchingSet "JOHNSON" (generateCustomers 0 70) matching /\
    Permutation matching sorted /\
    StronglySorted (orderedBy SortId Desc) sorted /\
    getCustomers (generateCustomers 0 70) 0 (Query 0 10 "JOHNSON" SortId Desc) =
    Some (Result (firstn 10 (skipn 0 sorted)) (Js.len matching)
            (0 + 10 <? Js.len matching)).
Proof.
  destruct (search_page (generateCustomers 0 70) 0
              (Query 0 10 "JOHNSON" SortId Desc))
    as (matching & sorted & Hset & Hperm & Hsorted & Hget & _);
    [reflexivity | simpl; lia | simpl; lia |].
  exists matching, sorted.
  split; [exact Hset |]. split; [exact Hperm |]. split; [exact Hsorted |].
  exact Hget.
Defined.

(** C6.  In every result, [hasMore] is false exactly when
    [offset + limit >= total]; an offset at or beyond the total is not an
    error: the query returns an empty page with [hasMore = false]. *)
Theorem hasMore_spec (st : store) (now : Z) (q : query) :
  0 <= offset q -> 0 < limit q ->
  (forall r,
     getCustomers st now q = Some r ->
     (hasMore r = false <-> total r <= offset q + limit q)) /\
  (falsy (search q) = true -> VIRTUAL_TOTAL <= offset q ->
   getCustomers st now q = Some (Result [] VIRTUAL_TOTAL false)) /\
  (falsy (search q) = false ->
   exists r,
     getCustomers st now q = Some r /\
     (total r <= offset q -> data r = [] /\ hasMore r = false)).
Proof.
  intros Ho Hl. split; [| split].
  - intros r Hr. destruct (falsy (search q)) eqn:Hf.
    + destruct (getCustomers_noSearch st now q r Hf Ho Hr) as (-> & -> & _).
      unfold windowEnd. rewrite Z.ltb_ge. lia.
    + destruct (getCustomers_search st now q Hf) as (sorted & Hget & _).
      rewrite Hget in Hr. injection Hr as <-. simpl. apply Z.ltb_ge.
  - intros Hf Hbeyond. unfold getCustomers. rewrite Hf.
    rewrite merged_cells by assumption.
    rewrite Z.min_r by lia. rewrite zrange_empty by lia.
    destruct (sortBy q); reflexivity.
  - intros Hf.
    destruct (getCustomers_search st now q Hf) as (sorted & Hget & _).
    eexists. split; [exact Hget |]. simpl. intros Hbeyond. split.
    + rewrite slice_window by lia.
      rewrite skipn_all2 by (unfold Js.len in Hbeyond; lia).
      apply firstn_nil.
    + apply Z.ltb_ge. lia.
Qed.

Lemma hasMore_spec_witness :
  getCustomers (generateCustomers 0 3) 0 (Query 1000000 30 "" SortName Asc) =
  Some (Result [] VIRTUAL_TOTAL false) /\
  (exists r,
     getCustomers (generateCustomers 0 3) 0 (Query 5 30 "smith" SortId Asc) = Some r /\
     data r = [] /\ hasMore r = false).
Proof.
  split.
  - apply (hasMore_spec (generateCustomers 0 3) 0 (Query 1000000 30 "" SortName Asc));
      simpl; try reflexivity; unfold VIRTUAL_TOTAL; lia.
  - destruct (hasMore_spec (generateCustomers 0 3) 0 (Query 5 30 "smith" SortId Asc))
      as (_ & _ & Hs); [simpl; lia | simpl; lia |].
    destruct Hs as (r & Hr & Hempty); [reflexivity |].
    exists r. split; [exact Hr |]. apply Hempty.
    vm_compute in Hr. injection Hr as <-. vm_compute. discriminate.
Defined.

(** C10.  On a store whose phones are made of ['+'] and digits only, as all
    ingested phones are, a query and the same query with its search term
    lowercased have the same result: page, total and hasMore. *)
Theorem search_case_insensitive (st : store) (now : Z) (q : query) :
  Forall plainPhone st ->
  getCustomers st now (withSearch q (Js.toLowerCase (search q))) =
  getCustomers st now q.
Proof.
  intros Hst. unfold getCustomers, withSearch. cbn [search offset limit sortBy sortOrder].
  rewrite falsy_toLowerCase.
  destruct (falsy (search q)); [reflexivity |].
  rewrite !scanSearch_spec. cbn [app].
  rewrite (filter_ext_in
             (matches (Js.toLowerCase (search q))
                (Js.toLowerCase (Js.toLowerCase (search q))))
             (matches (search q) (Js.toLowerCase (search q)))); [reflexivity |].
  intros c Hc. symmetry. apply matches_lower.
  rewrite Forall_forall in Hst. now apply Hst.
Qed.

Lemma search_case_insensitive_witness :
  getCustomers
    (saveCustomerBatches (generateCustomerBatches 0 70 30) []) 0
    (Query 0 30 "johnson" SortName Desc) =
  getCustomers
    (saveCustomerBatches (generateCustomerBatches 0 70 30) []) 0
    (Query 0 30 "JohnSON" SortName Desc).
Proof.
  apply (search_case_insensitive
           (saveCustomerBatches (generateCustomerBatches 0 70 30) []) 0
           (Query 0 30 "JohnSON" SortName Desc)).
  apply ingested_plainPhone. lia.
Defined.

(** ** Further properties of the code *)

(** *** The generator *)

Lemma rem_nonneg_bound a b : 0 <= a -> 0 < b -> 0 <= Js.rem a b < b.
Proof. intros Ha Hb. unfold Js.rem. now apply Z.rem_bound_pos. Qed.

Lemma index_In table i :
  0 <= i < Js.len table -> In (Js.index table i) table.
Proof.
  intros Hi. unfold Js.index, Js.len in *.
  destruct (Z.ltb_spec i 0); [lia |].
  apply nth_In. lia.
Qed.

(** X1.  The score is computed by [(id * 7) % 100]: for a non-negative id it lies
    in [[0, 99]], in the generator and in the synthesizer alike. *)
Theorem score_range (now n : Z) :
  0 <= n ->
  0 <= score (generateCustomer now n) <= 99 /\
  0 <= score (generateVirtualCustomer now n) <= 99.
Proof.
  intros Hn. cbn [generateCustomer generateVirtualCustomer score].
  pose proof (rem_nonneg_bound (n * 7) 100). lia.
Qed.

Lemma score_range_witness :
  0 <= score (generateCustomer 0 999999) <= 99 /\
  0 <= score (generateVirtualCustomer 0 999999) <= 99.
Proof. apply score_range. lia. Defined.

(** X2.  The timestamp of a generated record is never in the future and at most
    364 days before the clock reading. *)
Theorem lastMessageAt_within_year (now n : Z) :
  0 <= n ->
  now - 364 * 86400000 <= Js.getTime (lastMessageAt (generateCustomer now n)) <= now /\
  now - 364 * 86400000
    <= Js.getTime (lastMessageAt (generateVirtualCustomer now n)) <= now.
Proof.
  intros Hn. cbn [generateCustomer generateVirtualCustomer lastMessageAt].
  unfold Js.toISOString, Js.getTime.
  pose proof (rem_nonneg_bound n 365). lia.
Qed.

Lemma lastMessageAt_within_year_witness :
  1700000000000 - 364 * 86400000
    <= Js.getTime (lastMessageAt (generateCustomer 1700000000000 364))
    <= 1700000000000.
Proof. apply (lastMessageAt_within_year 1700000000000 364). lia. Defined.

(** X3.  For a non-negative id no table lookup falls outside its table: the name
    is a first name and a last name of the tables, the email is their
    lowercase forms, the id and a domain of the table, and [addedBy] is one of
    the agents. *)
Theorem generateCustomer_from_tables (now n : Z) :
  0 <= n ->
  exists first last domain,
    In first firstNames /\ In last lastNames /\ In domain domains /\
    name (generateCustomer now n) = (first ++ " " ++ last)%string /\
    email (generateCustomer now n) =
      ((Js.toLowerCase first ++ "." ++ Js.toLowerCase last)
         ++ Js.String_of n ++ "@" ++ domain)%string /\
    In (addedBy (generateCustomer now n)) agents.
Proof.
  intros Hn.
  exists (Js.index firstNames (Js.rem n (Js.len firstNames))),
         (Js.index lastNames
            (Js.rem (Js.floor_div n (Js.len firstNames)) (Js.len lastNames))),
         (Js.index domains (Js.rem n (Js.len domains))).
  assert (Hq : 0 <= Js.floor_div n (Js.len firstNames))
    by (unfold Js.floor_div; apply Z.div_pos; [assumption | reflexivity]).
  repeat split; try reflexivity;
    apply index_In; apply rem_nonneg_bound; (assumption || reflexivity).
Qed.

Lemma generateCustomer_from_tables_witness :
  exists first last domain,
    In first firstNames /\ In last lastNames /\ In domain domains /\
    name (generateCustomer 0 10000) = (first ++ " " ++ last)%string /\
    email (generateCustomer 0 10000) =
      ((Js.toLowerCase first ++ "." ++ Js.toLowerCase last)
         ++ Js.String_of 10000 ++ "@" ++ domain)%string /\
    In (addedBy (generateCustomer 0 10000)) agents.
Proof. apply generateCustomer_from_tables. lia. Defined.

(** X4.  Names repeat: the ids [n] and [n + 3584] (64 first names times 56 last
    names) get the same name, so a name does not identify a record. *)
Theorem generateCustomer_name_period (now1 now2 n : Z) :
  0 <= n ->
  name (generateCustomer now1 (n + 3584)) = name (generateCustomer now2 n).
Proof.
  intros Hn. cbn [generateCustomer name]. unfold Js.rem, Js.floor_div.
  change (Js.len firstNames) with 64. change (Js.len lastNames) with 56.
  assert (Hq : 0 <= n / 64) by (apply Z.div_pos; lia).
  rewrite !Z.rem_mod_nonneg by (try apply Z.div_pos; lia).
  replace (n + 3584) with (n + 56 * 64) by lia.
  rewrite Z.div_add, Z.mod_add by lia.
  replace (n / 64 + 56) with (n / 64 + 1 * 56) by lia.
  now rewrite Z.mod_add by lia.
Qed.

Lemma generateCustomer_name_period_witness :
  name (generateCustomer 0 (1 + 3584)) = name (generateCustomer 0 1).
Proof. apply generateCustomer_name_period. lia. Defined.

(** *** The phone number *)

Lemma padStart_length n c s :
  String.length (Js.padStart n c s) = Nat.max n (String.length s).
Proof.
  unfold Js.padStart.
  assert (Happ : forall a b, String.length (a ++ b)%string
                             = (String.length a + String.length b)%nat)
    by (induction a as [| x a IH]; intros b; simpl; [| rewrite IH]; reflexivity).
  assert (Hrep : forall k, String.length (Js.repeat_char c k) = k)
    by (induction k as [| k IH]; simpl; [| rewrite IH]; reflexivity).
  rewrite Happ, Hrep. lia.
Qed.

Lemma uint_of_padded k s :
  NilEmpty.uint_of_string (Js.repeat_char "0" k ++ s)%string =
  option_map (Nat.iter k Decimal.D0) (NilEmpty.uint_of_string s).
Proof.
  induction k as [| k IH]; simpl.
  - now destruct (NilEmpty.uint_of_string s).
  - rewrite IH. now destruct (NilEmpty.uint_of_string s).
Qed.

Lemma of_uint_leading_zeros k d :
  Z.of_uint (Nat.iter k Decimal.D0 d) = Z.of_uint d.
Proof. induction k as [| k IH]; simpl; [reflexivity | exact IH]. Qed.

(** The decimal numeral whose text is [String(n)], for [n >= 0]. *)
Lemma String_of_numeral n :
  0 <= n ->
  exists d, Js.String_of n = NilEmpty.string_of_uint d /\ Z.of_uint d = n.
Proof.
  intros Hn. destruct n as [| p | p]; [| | lia].
  - exists (Decimal.D0 Decimal.Nil). split; reflexivity.
  - exists (Pos.to_uint p). split; [reflexivity |].
    unfold Z.of_uint. now rewrite DecimalPos.Unsigned.of_to.
Qed.

(** X5.  The phone of a generated record encodes its id: the digits after the
    ["+1"] prefix, read as a decimal number, give the id back.  Two different
    non-negative ids therefore never share a phone. *)
Theorem phone_encodes_id (now n : Z) :
  0 <= n ->
  phoneId (phone (generateCustomer now n)) = Some n /\
  phoneId (phone (generateVirtualCustomer now n)) = Some n /\
  (forall now' m, 0 <= m -> m <> n ->
     phone (generateCustomer now' m) <> phone (generateCustomer now n)).
Proof.
  assert (Hdec : forall k, 0 <= k ->
            phoneId ("+1" ++ Js.padStart 10 "0" (Js.String_of k))%string = Some k).
  { clear. intros n Hn. destruct (String_of_numeral n Hn) as (d & -> & Hd).
    cbn [append phoneId]. unfold Js.padStart.
    rewrite uint_of_padded, NilEmpty.usu. simpl.
    now rewrite of_uint_leading_zeros, Hd. }
  intros Hn. split; [| split].
  - apply (Hdec n Hn).
  - apply (Hdec n Hn).
  - intros now' m Hm Hne Heq.
    apply Hne. apply (f_equal phoneId) in Heq.
    cbn [generateCustomer phone] in Heq.
    rewrite (Hdec m Hm), (Hdec n Hn) in Heq. congruence.
Qed.

Lemma phone_encodes_id_witness :
  phoneId (phone (generateCustomer 0 1000000)) = Some 1000000 /\
  phone (generateCustomer 0 7) <> phone (generateCustomer 0 1000000).
Proof.
  destruct (phone_encodes_id 0 1000000) as (Hdec & _ & Hne); [lia |].
  split; [exact Hdec | apply Hne; lia].
Defined.

Lemma string_of_uint_length d :
  String.length (NilEmpty.string_of_uint d) = Decimal.nb_digits d.
Proof. induction d; simpl; congruence. Qed.

Lemma of_uint_acc_lower d : forall acc,
  Z.pos acc * 10 ^ Z.of_nat (Decimal.nb_digits d) <= Z.pos (Pos.of_uint_acc d acc).
Proof.
  induction d; intros acc; cbn [Pos.of_uint_acc Decimal.nb_digits];
    try (simpl; lia);
    rewrite Nat2Z.inj_succ, Z.pow_succ_r by lia;
    (etransitivity; [| apply IHd]);
    assert (0 < 10 ^ Z.of_nat (Decimal.nb_digits d)) by (apply Z.pow_pos_nonneg; lia);
    nia.
Qed.

(** A numeral that does not start with a zero is at least [10^(digits-1)]. *)
Lemma of_uint_lower d :
  Decimal.unorm d = d -> d <> Decimal.zero ->
  10 ^ (Z.of_nat (Decimal.nb_digits d) - 1) <= Z.of_uint d.
Proof.
  intros Hnorm Hnz. unfold Z.of_uint.
  destruct d; cbn [Pos.of_uint Decimal.nb_digits Z.of_N];
    rewrite ?Nat2Z.inj_succ;
    try (replace (Z.succ (Z.of_nat (Decimal.nb_digits d)) - 1)
           with (Z.of_nat (Decimal.nb_digits d)) by lia;
         etransitivity; [| apply of_uint_acc_lower]; 
         assert (0 < 10 ^ Z.of_nat (Decimal.nb_digits d))
           by (apply Z.pow_pos_nonneg; lia);
         nia).
  - simpl in Hnorm. discriminate.
  - exfalso. rewrite DecimalFacts.unorm_D0 in Hnorm.
    destruct d as [| | | | | | | | | |];
      [now apply Hnz | ..];
      match type of Hnorm with
      | Decimal.unorm ?u = _ =>
          assert (Hlen : (Decimal.nb_digits (Decimal.unorm u) <= Decimal.nb_digits u)%nat)
            by (apply DecimalFacts.nb_digits_unorm; discriminate);
          rewrite Hnorm in Hlen; simpl in Hlen; lia
      end.
Qed.

Lemma String_of_width n :
  0 <= n < 10 ^ 10 -> (String.length (Js.String_of n) <= 10)%nat.
Proof.
  intros [Hn Hlt]. destruct n as [| p | p]; [simpl; lia | | lia].
  change (Js.String_of (Z.pos p)) with (NilEmpty.string_of_uint (Pos.to_uint p)).
  rewrite string_of_uint_length.
  assert (Hnorm : Decimal.unorm (Pos.to_uint p) = Pos.to_uint p).
  { rewrite <- DecimalPos.Unsigned.to_of.
    now rewrite DecimalPos.Unsigned.of_to. }
  pose proof (of_uint_lower _ Hnorm (DecimalPos.Unsigned.to_uint_nonzero p)) as Hlow.
  unfold Z.of_uint in Hlow. rewrite DecimalPos.Unsigned.of_to in Hlow.
  simpl Z.of_N in Hlow.
  destruct (Nat.le_gt_cases (Decimal.nb_digits (Pos.to_uint p)) 10) as [H | H];
    [exact H | exfalso].
  assert (10 ^ 10 <= 10 ^ (Z.of_nat (Decimal.nb_digits (Pos.to_uint p)) - 1))
    by (apply Z.pow_le_mono_r; lia).
  lia.
Qed.

(** X6.  The phone has a fixed width: for every id in [[0, 10^10)] it is ["+1"]
    followed by exactly ten decimal digits, twelve characters in all. *)
Theorem phone_fixed_width (now n : Z) :
  0 <= n < 10 ^ 10 ->
  String.length (phone (generateCustomer now n)) = 12%nat /\
  String.length (phone (generateVirtualCustomer now n)) = 12%nat /\
  exists digits,
    phone (generateCustomer now n) = ("+1" ++ digits)%string /\
    allChars Js.is_digit digits = true.
Proof.
  intros Hn. pose proof (String_of_width n Hn) as Hw.
  cbn [generateCustomer generateVirtualCustomer phone append String.length].
  rewrite padStart_length.
  split; [lia |]. split; [lia |].
  eexists. split; [reflexivity |].
  unfold Js.padStart. apply allChars_app.
  - now apply repeat_char_all.
  - apply String_of_nonneg_digits. lia.
Qed.

Lemma phone_fixed_width_witness :
  String.length (phone (generateCustomer 0 1000000)) = 12%nat.
Proof. apply (phone_fixed_width 0 1000000). lia. Defined.

(** *** Batches *)

Lemma batches_from_concat now totalCount batchSize (fuel : nat) : forall i,
  1 <= batchSize ->
  (Z.to_nat (totalCount + 1 - i) <= fuel)%nat ->
  List.concat (batches_from fuel now i totalCount batchSize) =
  map (generateCustomer now) (Js.zrange i (totalCount + 1)).
Proof.
  induction fuel as [| fuel IH]; intros i Hb Hfuel.
  - now rewrite zrange_empty by lia.
  - cbn [batches_from]. destruct (Z.leb_spec i totalCount) as [Hle | Hgt].
    + cbn [List.concat]. rewrite IH by lia. rewrite <- map_app. f_equal.
      destruct (Z.le_gt_cases (i + batchSize) (totalCount + 1)).
      * rewrite Z.min_l by lia. apply zrange_app; lia.
      * rewrite Z.min_r by lia.
        rewrite (zrange_empty (i + batchSize)) by lia. apply app_nil_r.
    + now rewrite zrange_empty by lia.
Qed.

(** X7.  The batches, put end to end, are the records [1 .. totalCount] in order:
    batching loses, repeats and reorders nothing. *)
Theorem generateCustomerBatches_concat (now totalCount batchSize : Z) :
  1 <= batchSize ->
  List.concat (generateCustomerBatches now totalCount batchSize) =
  generateCustomers now totalCount.
Proof.
  intros Hb. unfold generateCustomerBatches, generateCustomers.
  apply batches_from_concat; [assumption | lia].
Qed.

Lemma generateCustomerBatches_concat_witness :
  List.concat (generateCustomerBatches 0 10 4) = generateCustomers 0 10.
Proof. apply generateCustomerBatches_concat. lia. Defined.

Lemma batches_from_sizes now totalCount batchSize (fuel : nat) : forall i,
  1 <= batchSize ->
  Forall (fun batch => 1 <= Js.len batch <= batchSize)
    (batches_from fuel now i totalCount batchSize) /\
  (forall k,
     (S k < List.length (batches_from fuel now i totalCount batchSize))%nat ->
     Js.len (nth k (batches_from fuel now i totalCount batchSize) []) = batchSize).
Proof.
  induction fuel as [| fuel IH]; intros i Hb; cbn [batches_from].
  - split; [constructor | simpl; lia].
  - destruct (Z.leb_spec i totalCount) as [Hle | Hgt];
      [| split; [constructor | simpl; lia]].
    destruct (IH (i + batchSize) Hb) as [Hall Hfull].
    assert (Hlen : forall e, Js.len (map (generateCustomer now) (Js.zrange i e))
                             = Z.max 0 (e - i))
      by (intros e; unfold Js.len; rewrite length_map, zrange_length; lia).
    split.
    + constructor; [rewrite Hlen; lia | exact Hall].
    + intros [| k] Hk; cbn [nth List.length] in *.
      * rewrite Hlen.
        destruct fuel as [| fuel']; [simpl in Hk; lia |].
        cbn [batches_from] in Hk.
        destruct (Z.leb_spec (i + batchSize) totalCount); [lia | simpl in Hk; lia].
      * apply Hfull. lia.
Qed.

(** X8.  No batch is empty, none is longer than [batchSize], and every batch but
    the last holds exactly [batchSize] records. *)
Theorem generateCustomerBatches_sizes (now totalCount batchSize : Z) :
  1 <= batchSize ->
  Forall (fun batch => 1 <= Js.len batch <= batchSize)
    (generateCustomerBatches now totalCount batchSize) /\
  (forall k,
     (S k < List.length (generateCustomerBatches now totalCount batchSize))%nat ->
     Js.len (nth k (generateCustomerBatches now totalCount batchSize) [])
       = batchSize).
Proof. intros Hb. now apply batches_from_sizes. Qed.

Lemma generateCustomerBatches_sizes_witness :
  Forall (fun batch => 1 <= Js.len batch <= 4) (generateCustomerBatches 0 10 4).
Proof. apply (generateCustomerBatches_sizes 0 10 4). lia. Defined.

Lemma onProgressCalls_from now totalCount batchSize (fuel : nat) : forall i,
  1 <= batchSize ->
  (Z.to_nat (totalCount + 1 - i) <= fuel)%nat ->
  StronglySorted Z.lt
    (onProgressCalls (i - 1) (batches_from fuel now i totalCount batchSize)) /\
  Forall (fun p => i - 1 < p <= totalCount)
    (onProgressCalls (i - 1) (batches_from fuel now i totalCount batchSize)) /\
  (i <= totalCount ->
   last (onProgressCalls (i - 1) (batches_from fuel now i totalCount batchSize)) 0
     = totalCount).
Proof.
  induction fuel as [| fuel IH]; intros i Hb Hfuel; cbn [batches_from].
  - simpl. repeat split; [constructor | constructor | lia].
  - destruct (Z.leb_spec i totalCount) as [Hle | Hgt];
      [| simpl; repeat split; [constructor | constructor | lia]].
    cbn [onProgressCalls].
    assert (Hlen : forall e, Js.len (map (generateCustomer now) (Js.zrange i e))
                             = Z.max 0 (e - i))
      by (intros e; unfold Js.len; rewrite length_map, zrange_length; lia).
    rewrite !Hlen.
    destruct (Z.le_gt_cases (i + batchSize) totalCount) as [Hmore | Hdone].
    + rewrite Z.min_l by lia.
      replace (i - 1 + Z.max 0 (i + batchSize - i))
        with (i + batchSize - 1) by lia.
      destruct (IH (i + batchSize) Hb) as (Hs & Hf & Hl); [lia |].
      split; [| split].
      * constructor; [exact Hs |].
        eapply Forall_impl; [| exact Hf]. simpl. intros p Hp. lia.
      * constructor; [lia |].
        eapply Forall_impl; [| exact Hf]. simpl. intros p Hp. lia.
      * intros _. specialize (Hl Hmore).
        destruct (onProgressCalls (i + batchSize - 1)
                    (batches_from fuel now (i + batchSize) totalCount batchSize))
          as [| p rest] eqn:E; [| exact Hl].
        destruct fuel as [| fuel']; [lia |].
        cbn [batches_from] in E.
        destruct (Z.leb_spec (i + batchSize) totalCount); [discriminate E | lia].
    + assert (E : batches_from fuel now (i + batchSize) totalCount batchSize = []).
      { destruct fuel as [| fuel']; [reflexivity |]. cbn [batches_from].
        destruct (Z.leb_spec (i + batchSize) totalCount); [lia | reflexivity]. }
      rewrite E. cbn [onProgressCalls last].
      replace (i - 1 + Z.max 0 (Z.min (i + batchSize) (totalCount + 1) - i))
        with totalCount by lia.
      repeat split; try lia; repeat constructor; lia.
Qed.

(** X9.  The progress callback of the ingestion receives strictly increasing
    counts, none above [totalCount], and the last one is [totalCount]: the
    progress ends exactly at the announced total. *)
Theorem onProgress_reaches_total (now totalCount batchSize : Z) :
  1 <= batchSize -> 1 <= totalCount ->
  StronglySorted Z.lt
    (onProgressCalls 0 (generateCustomerBatches now totalCount batchSize)) /\
  Forall (fun p => 0 < p <= totalCount)
    (onProgressCalls 0 (generateCustomerBatches now totalCount batchSize)) /\
  last (onProgressCalls 0 (generateCustomerBatches now totalCount batchSize)) 0
    = totalCount.
Proof.
  intros Hb Ht. unfold generateCustomerBatches.
  destruct (onProgressCalls_from now totalCount batchSize
              (Z.to_nat totalCount) 1 Hb) as (Hs & Hf & Hl); [lia |].
  change (1 - 1) with 0 in *. split; [exact Hs |]. split; [exact Hf |].
  apply Hl. lia.
Qed.

Lemma onProgress_reaches_total_witness :
  last (onProgressCalls 0 (generateCustomerBatches 0 10000 1000)) 0 = 10000.
Proof. apply (onProgress_reaches_total 0 10000 1000); lia. Defined.

(** *** The store *)

Lemma saveCustomerBatches_concat batches : forall st,
  saveCustomerBatches batches st =
  fold_left (fun s c => put c s) (List.concat batches) st.
Proof.
  unfold saveCustomerBatches.
  induction batches as [| batch rest IH]; intros st; simpl; [reflexivity |].
  now rewrite fold_left_app, IH.
Qed.

Lemma put_keysAscending c : forall st,
  keysAscending st -> keysAscending (put c st).
Proof.
  unfold keysAscending.
  induction st as [| d rest IH]; intros Hs; simpl.
  - repeat constructor.
  - inversion Hs as [| ? ? Hrest Hall]; subst.
    destruct (Z.ltb_spec (id c) (id d)) as [Hlt | Hge].
    + simpl. constructor; [exact Hs |].
      constructor; [exact Hlt |].
      eapply Forall_impl; [| exact Hall]. simpl. intros k Hk. lia.
    + destruct (Z.eqb_spec (id c) (id d)) as [Heq | Hne].
      * simpl. constructor; [exact Hrest | now rewrite Heq].
      * simpl. constructor; [now apply IH |].
        apply Forall_map. apply put_Forall; [lia |].
        rewrite Forall_map in Hall. exact Hall.
Qed.

Lemma fold_put_keysAscending l : forall st,
  keysAscending st -> keysAscending (fold_left (fun s c => put c s) l st).
Proof.
  induction l as [| c l IH]; intros st Hs; simpl; [exact Hs |].
  apply IH. now apply put_keysAscending.
Qed.

Lemma keysAscending_NoDup st : keysAscending st -> NoDup (map id st).
Proof.
  unfold keysAscending. induction 1 as [| k ks Hs IH Hall]; constructor;
    [| exact IH].
  intros Hin. rewrite Forall_forall in Hall. specialize (Hall k Hin). lia.
Qed.

(** X10.  Saving keeps the cursor order of the store: keys strictly ascending, so
    no id is ever stored twice, whatever batches are written. *)
Theorem saveCustomerBatches_keys (batches : list (list customer)) (st : store) :
  keysAscending st ->
  keysAscending (saveCustomerBatches batches st) /\
  NoDup (map id (saveCustomerBatches batches st)).
Proof.
  intros Hs.
  assert (H : keysAscending (saveCustomerBatches batches st))
    by (rewrite saveCustomerBatches_concat; now apply fold_put_keysAscending).
  split; [exact H | now apply keysAscending_NoDup].
Qed.

Lemma saveCustomerBatches_keys_witness :
  NoDup (map id
    (saveCustomerBatches
       [[generateCustomer 0 2; generateCustomer 0 1]; [generateCustomer 5 2]] [])).
Proof.
  apply (saveCustomerBatches_keys
           [[generateCustomer 0 2; generateCustomer 0 1]; [generateCustomer 5 2]] []).
  constructor.
Defined.

Lemma put_In c d : forall st,
  keysAscending st ->
  (In d (put c st) <-> d = c \/ (In d st /\ id d <> id c)).
Proof.
  unfold keysAscending.
  induction st as [| x rest IH]; intros Hs; simpl.
  - intuition.
  - inversion Hs as [| ? ? Hrest Hall]; subst.
    assert (Hgt : forall e, In e rest -> id x < id e).
    { intros e He. rewrite Forall_forall in Hall. apply Hall.
      now apply in_map. }
    destruct (Z.ltb_spec (id c) (id x)) as [Hlt | Hge].
    + simpl. split.
      * intros [<- | [<- | Hin]]; [now left | right; split; [now left | lia] |].
        right. split; [now right |]. specialize (Hgt d Hin). lia.
      * intros [-> | [[<- | Hin] _]]; auto.
    + destruct (Z.eqb_spec (id c) (id x)) as [Heq | Hne].
      * simpl. split.
        -- intros [<- | Hin]; [now left |].
           right. split; [now right |]. specialize (Hgt d Hin). lia.
        -- intros [-> | [[<- | Hin] Hd]]; [now left | congruence | now right].
      * simpl. rewrite (IH Hrest). split.
        -- intros [<- | [-> | [Hin Hd]]]; [right; split; [now left | lia] | now left |].
           right. split; [now right | exact Hd].
        -- intros [-> | [[<- | Hin] Hd]]; [right; now left | now left |].
           right. right. now split.
Qed.

Lemma lastWrite_cons d c l :
  lastWrite d (c :: l) <-> (d = c /\ ~ In (id d) (map id l)) \/ lastWrite d l.
Proof.
  unfold lastWrite. split.
  - intros (l1 & l2 & E & Hn). destruct l1 as [| x l1]; simpl in E.
    + injection E as <- <-. now left.
    + injection E as <- ->. right. now exists l1, l2.
  - intros [[-> Hn] | (l1 & l2 & -> & Hn)].
    + now exists [], l.
    + now exists (c :: l1), l2.
Qed.

Lemma fold_put_In d l : forall st,
  keysAscending st ->
  (In d (fold_left (fun s c => put c s) l st) <->
   lastWrite d l \/ (In d st /\ ~ In (id d) (map id l))).
Proof.
  induction l as [| c l IH]; intros st Hs.
  - simpl. split; [intros H; right; now split |].
    intros [(l1 & l2 & E & _) | [H _]]; [| exact H].
    now destruct l1.
  - cbn [fold_left map]. rewrite (IH (put c st)) by now apply put_keysAscending.
    rewrite lastWrite_cons, (put_In c d st Hs). simpl. split.
    + intros [Hl | [[-> | [Hin Hd]] Hn]]; [left; now right | left; now left |].
      right. split; [exact Hin |]. intros [E | Hi]; [congruence | contradiction].
    + intros [[[-> Hn] | Hl] | [Hin Hn]]; [right; split; [now left | exact Hn] | now left |].
      right. split; [right; split; [exact Hin |] |]; intuition congruence.
Qed.

(** X11.  After saving, the cursor yields exactly the last record written under
    each written id, and the records that were stored before under ids that
    were not written: a later write replaces an earlier one, and nothing else
    is touched. *)
Theorem saveCustomerBatches_last_write_wins (batches : list (list customer))
  (st : store) (d : customer) :
  keysAscending st ->
  (In d (saveCustomerBatches batches st) <->
   lastWrite d (List.concat batches) \/
   (In d st /\ ~ In (id d) (map id (List.concat batches)))).
Proof.
  intros Hs. rewrite saveCustomerBatches_concat. now apply fold_put_In.
Qed.

Lemma saveCustomerBatches_last_write_wins_witness :
  In (generateCustomer 5 2)
    (saveCustomerBatches
       [[generateCustomer 0 2; generateCustomer 0 1]; [generateCustomer 5 2]] []).
Proof.
  apply (saveCustomerBatches_last_write_wins
           [[generateCustomer 0 2; generateCustomer 0 1]; [generateCustomer 5 2]]
           [] (generateCustomer 5 2)); [constructor |].
  left. exists [generateCustomer 0 2; generateCustomer 0 1], [].
  split; [reflexivity | intros []].
Defined.

Lemma put_present c : forall st,
  keysAscending st -> In c st -> put c st = st.
Proof.
  unfold keysAscending.
  induction st as [| x rest IH]; intros Hs Hin; [contradiction |].
  inversion Hs as [| ? ? Hrest Hall]; subst. simpl.
  destruct Hin as [-> | Hin].
  - rewrite Z.ltb_irrefl, Z.eqb_refl. reflexivity.
  - assert (Hlt : id x < id c).
    { rewrite Forall_forall in Hall. apply Hall. now apply in_map. }
    destruct (Z.ltb_spec (id c) (id x)); [lia |].
    destruct (Z.eqb_spec (id c) (id x)); [lia |].
    now rewrite IH.
Qed.

(** X12.  Saving records that the store already holds changes nothing: no
    duplicate, no reordering, the same count. *)
Theorem saveCustomerBatches_stored (batches : list (list customer)) (st : store) :
  keysAscending st ->
  (forall c, In c (List.concat batches) -> In c st) ->
  saveCustomerBatches batches st = st.
Proof.
  intros Hs Hall. rewrite saveCustomerBatches_concat.
  induction (List.concat batches) as [| c l IH]; simpl; [reflexivity |].
  rewrite put_present; [| exact Hs | apply Hall; now left].
  apply IH. intros e He. apply Hall. now right.
Qed.

Lemma saveCustomerBatches_stored_witness :
  saveCustomerBatches (generateCustomerBatches 0 5 2) (generateCustomers 0 5)
  = generateCustomers 0 5.
Proof.
  apply saveCustomerBatches_stored.
  - repeat constructor.
  - intros c Hc. exact Hc.
Defined.

(** *** Start-up *)

(** X13.  [initializeApp] fills an empty store with the records [1 .. 10000] and
    leaves every store that already holds a record as it is, complete or
    not; running it again never changes the store. *)
Theorem initializeApp_once (now now' : Z) (st : store) :
  (st <> [] -> initializeApp now st = st) /\
  initializeApp now [] = generateCustomers now 10000 /\
  initializeApp now' (initializeApp now st) = initializeApp now st.
Proof.
  assert (Hkeep : forall t s, s <> [] -> initializeApp t s = s).
  { intros t s Hne. unfold initializeApp, hasData, Js.len.
    destruct s; [congruence | reflexivity]. }
  destruct (initializeApp_store now) as (Hgen & _ & Hlen & _).
  split; [apply Hkeep |]. split; [exact Hgen |].
  destruct st as [| c st].
  - apply Hkeep. intros E. rewrite E in Hlen. discriminate Hlen.
  - rewrite (Hkeep now (c :: st)) by discriminate. apply Hkeep. discriminate.
Qed.

Lemma initializeApp_once_witness :
  initializeApp 7 [generateCustomer 0 1] = [generateCustomer 0 1].
Proof.
  apply (proj1 (initializeApp_once 7 7 [generateCustomer 0 1])). discriminate.
Defined.

(** *** The query engine: sizes and origins of the page *)

Lemma dropNull_length l : (List.length (dropNull l) <= List.length l)%nat.
Proof. induction l as [| [c |] l IH]; simpl; lia. Qed.

Lemma dropNull_In c cells :
  In c (dropNull cells) <-> In (Some c) cells.
Proof.
  induction cells as [| [d |] cells IH]; simpl; [tauto | |].
  - rewrite IH. split; intros [H | H]; auto; left; congruence.
  - rewrite IH. split; [auto | intros [H | H]; [discriminate | exact H]].
Qed.

(** X14.  A page never holds more than [limit] records, nor more than the total
    leaves after [offset]. *)
Theorem page_length_bound (st : store) (now : Z) (q : query) (r : result) :
  0 <= offset q -> 0 < limit q ->
  getCustomers st now q = Some r ->
  Js.len (data r) <= limit q /\
  Js.len (data r) <= Z.max 0 (total r - offset q).
Proof.
  intros Ho Hl Hr. destruct (falsy (search q)) eqn:Hf.
  - destruct (getCustomers_noSearch st now q r Hf Ho Hr) as (-> & _ & Hp & _).
    unfold Js.len. rewrite <- (Permutation_length Hp).
    pose proof (dropNull_length
      (map (windowCell st now) (Js.zrange (offset q) (windowEnd q)))) as Hd.
    rewrite length_map, zrange_length in Hd. unfold windowEnd in *. lia.
  - destruct (getCustomers_search st now q Hf) as (sorted & Hget & _).
    rewrite Hget in Hr. injection Hr as <-. cbn [data total].
    rewrite slice_window by lia. unfold Js.len.
    rewrite length_firstn, length_skipn. lia.
Qed.

Lemma page_length_bound_witness :
  exists r,
    getCustomers (generateCustomers 0 70) 0 (Query 40 30 "" SortName Asc) = Some r /\
    Js.len (data r) <= 30.
Proof.
  destruct (getCustomers (generateCustomers 0 70) 0 (Query 40 30 "" SortName Asc))
    as [r |] eqn:Hr; [| vm_compute in Hr; discriminate Hr].
  exists r. split; [reflexivity |].
  apply (page_length_bound (generateCustomers 0 70) 0
           (Query 40 30 "" SortName Asc) r); simpl; (lia || exact Hr).
Defined.

Lemma windowCell_origin st now i c :
  0 <= i -> windowCell st now i = Some c ->
  In c st \/ (ACTUAL_STORED <= i /\ c = generateVirtualCustomer now (i + 1)).
Proof.
  intros Hi. unfold windowCell.
  destruct (nth_error st (Z.to_nat i)) as [d |] eqn:E.
  - intros H. injection H as <-. left. eapply nth_error_In; eassumption.
  - destruct (Z.ltb_spec i ACTUAL_STORED) as [Hlt | Hge]; [discriminate |].
    intros Hv. injection Hv as <-. right. now split.
Qed.

(** X15.  Without a search term every record of the page is either a record of the
    store or the synthesized record of an id of the window that lies above
    [ACTUAL_STORED] and not above [VIRTUAL_TOTAL]: an id up to [ACTUAL_STORED]
    is never synthesized and no id beyond the logical total is served. *)
Theorem noSearch_page_origin (st : store) (now : Z) (q : query) (r : result)
  (c : customer) :
  falsy (search q) = true -> 0 <= offset q ->
  getCustomers st now q = Some r -> In c (data r) ->
  In c st \/
  exists n,
    ACTUAL_STORED < n <= VIRTUAL_TOTAL /\
    offset q < n <= offset q + limit q /\
    c = generateVirtualCustomer now n.
Proof.
  intros Hf Ho Hr Hc.
  destruct (getCustomers_noSearch st now q r Hf Ho Hr) as (_ & _ & Hp & _).
  apply (Permutation_in _ (Permutation_sym Hp)) in Hc.
  apply dropNull_In, in_map_iff in Hc. destruct Hc as (i & Hcell & Hi).
  apply zrange_In in Hi. unfold windowEnd in Hi.
  destruct (windowCell_origin st now i c) as [Hin | [Hk ->]];
    [lia | exact Hcell | now left |].
  right. exists (i + 1). repeat split; lia.
Qed.

Lemma noSearch_page_origin_witness :
  In (generateVirtualCustomer 0 10001) (generateCustomers 0 3) \/
  exists n,
    ACTUAL_STORED < n <= VIRTUAL_TOTAL /\
    9999 < n <= 9999 + 3 /\
    generateVirtualCustomer 0 10001 = generateVirtualCustomer 0 n.
Proof.
  apply (noSearch_page_origin (generateCustomers 0 3) 0
           (Query 9999 3 "" SortId Asc)
           (Result [generateVirtualCustomer 0 10001; generateVirtualCustomer 0 10002]
              VIRTUAL_TOTAL true)
           (generateVirtualCustomer 0 10001));
    [reflexivity | simpl; lia | vm_compute; reflexivity | now left].
Defined.

(** *** The query engine: distinct rows *)

Lemma zrange_NoDup lo hi : NoDup (Js.zrange lo hi).
Proof.
  unfold Js.zrange. apply Finite.Injective_map_NoDup; [| apply seq_NoDup].
  intros a b H. lia.
Qed.

Lemma NoDup_map_filter {A B : Type} (f : A -> B) (p : A -> bool) l :
  NoDup (map f l) -> NoDup (map f (filter p l)).
Proof.
  induction l as [| x l IH]; simpl; intros H; [constructor |].
  inversion H as [| ? ? Hnin Hnd]; subst.
  destruct (p x); simpl; [| now apply IH].
  constructor; [| now apply IH].
  intros Hin. apply Hnin. apply in_map_iff in Hin as (y & Hy & Hin).
  apply filter_In in Hin as [Hin _]. apply in_map_iff. now exists y.
Qed.

Lemma NoDup_map_slice {A B : Type} (f : A -> B) l n m :
  NoDup (map f l) -> NoDup (map f (firstn n (skipn m l))).
Proof.
  intros H. rewrite <- (firstn_skipn m l), map_app in H.
  apply NoDup_app_remove_l in H.
  rewrite <- (firstn_skipn n (skipn m l)), map_app in H.
  now apply NoDup_app_remove_r in H.
Qed.

Lemma windowCell_id st now i c :
  0 <= i -> densePrefix st -> windowCell st now i = Some c -> id c = i + 1.
Proof.
  intros Hi Hd Hcell. unfold windowCell in Hcell.
  destruct (nth_error st (Z.to_nat i)) as [d |] eqn:E.
  - injection Hcell as <-.
    rewrite <- (windowRecord_persisted st now i d E).
    now apply windowRecord_id.
  - destruct (i <? ACTUAL_STORED); [discriminate |].
    now injection Hcell as <-.
Qed.

Lemma window_ids_NoDup st now l :
  densePrefix st -> NoDup l -> Forall (fun i => 0 <= i) l ->
  NoDup (map id (dropNull (map (windowCell st now) l))).
Proof.
  intros Hd Hnd Hpos.
  induction l as [| i l IH]; simpl; [constructor |].
  inversion Hnd as [| ? ? Hnin Hnd']; subst.
  inversion Hpos as [| ? ? Hi Hpos']; subst.
  destruct (windowCell st now i) as [c |] eqn:E; [| now apply IH].
  simpl. constructor; [| now apply IH].
  intros Hin. apply Hnin.
  apply in_map_iff in Hin as (d & Hid & Hin).
  apply dropNull_In, in_map_iff in Hin as (j & Hcell & Hj).
  rewrite Forall_forall in Hpos'.
  rewrite (windowCell_id st now i c Hi Hd E) in Hid.
  rewrite (windowCell_id st now j d (Hpos' j Hj) Hd Hcell) in Hid.
  now replace i with j by lia.
Qed.

(** X16.  When the stored ids are [1 .. n] without gap, as after ingestion, the
    records of every page have pairwise distinct ids, in both modes and for
    every sort: the table never gets two rows with the same key. *)
Theorem page_ids_distinct (st : store) (now : Z) (q : query) (r : result) :
  densePrefix st -> 0 <= offset q -> 0 < limit q ->
  getCustomers st now q = Some r ->
  NoDup (map id (data r)).
Proof.
  intros Hd Ho Hl Hr. destruct (falsy (search q)) eqn:Hf.
  - destruct (getCustomers_noSearch st now q r Hf Ho Hr) as (_ & _ & Hp & _).
    eapply Permutation_NoDup; [apply Permutation_map; exact Hp |].
    apply window_ids_NoDup; [assumption | apply zrange_NoDup |].
    apply Forall_forall. intros i Hi. apply zrange_In in Hi. lia.
  - destruct (getCustomers_search st now q Hf) as (sorted & Hget & Hp & _).
    rewrite Hget in Hr. injection Hr as <-. cbn [data].
    rewrite slice_window by lia. apply NoDup_map_slice.
    eapply Permutation_NoDup; [apply Permutation_map; exact Hp |].
    apply NoDup_map_filter. unfold densePrefix in Hd. rewrite Hd.
    apply zrange_NoDup.
Qed.

Lemma page_ids_distinct_witness :
  exists r,
    getCustomers (generateCustomers 0 70) 0 (Query 0 30 "a" SortScore Desc) = Some r /\
    NoDup (map id (data r)).
Proof.
  destruct (getCustomers (generateCustomers 0 70) 0 (Query 0 30 "a" SortScore Desc))
    as [r |] eqn:Hr; [| vm_compute in Hr; discriminate Hr].
  exists r. split; [reflexivity |].
  apply (page_ids_distinct (generateCustomers 0 70) 0
           (Query 0 30 "a" SortScore Desc) r);
    [apply generateCustomers_dense | simpl; lia | simpl; lia | exact Hr].
Defined.

(** *** The query engine: search sorted by id *)

Lemma sink_id_asc x : forall revPrefix,
  Forall (fun y => id y < id x) revPrefix ->
  sink (fun a b => ret (compareCustomers SortId Asc a b)) x revPrefix
  = Some (x :: revPrefix).
Proof.
  intros [| tmp rest] H; [reflexivity |].
  inversion H; subst.
  assert (E : compareCustomers SortId Asc tmp x = -1).
  { unfold compareCustomers. simpl.
    destruct (Z.ltb_spec (id x) (id tmp)); [lia | reflexivity]. }
  cbn [sink bind ret]. now rewrite E.
Qed.

Lemma sink_id_desc x : forall revPrefix,
  Forall (fun y => id y < id x) revPrefix ->
  sink (fun a b => ret (compareCustomers SortId Desc a b)) x revPrefix
  = Some (revPrefix ++ [x]).
Proof.
  induction revPrefix as [| tmp rest IH]; intros H; [reflexivity |].
  inversion H; subst.
  assert (E : compareCustomers SortId Desc tmp x = 1).
  { unfold compareCustomers, js_lt. simpl.
    destruct (Z.ltb_spec (id tmp) (id x)); [reflexivity | lia]. }
  cbn [sink bind ret]. rewrite E. cbn [Z.ltb Z.compare].
  now rewrite IH.
Qed.

Lemma sort_loop_id_asc l : forall revPrefix,
  keysAscending l ->
  Forall (fun x => Forall (fun y => id y < id x) revPrefix) l ->
  sort_loop (fun a b => ret (compareCustomers SortId Asc a b)) l revPrefix
  = Some (rev l ++ revPrefix).
Proof.
  unfold keysAscending.
  induction l as [| x l IH]; intros revPrefix Hs Hall; simpl; [reflexivity |].
  inversion Hs as [| ? ? Hs' Hx]; subst.
  inversion Hall as [| ? ? Hxp Hall']; subst.
  rewrite sink_id_asc by exact Hxp. simpl.
  rewrite IH; [now rewrite <- app_assoc | exact Hs' |].
  rewrite Forall_map in Hx.
  apply Forall_forall. intros z Hz. constructor.
  - rewrite Forall_forall in Hx. now apply Hx.
  - rewrite Forall_forall in Hall'. now apply Hall'.
Qed.

Lemma sort_loop_id_desc l : forall revPrefix,
  keysAscending l ->
  Forall (fun x => Forall (fun y => id y < id x) revPrefix) l ->
  sort_loop (fun a b => ret (compareCustomers SortId Desc a b)) l revPrefix
  = Some (revPrefix ++ l).
Proof.
  unfold keysAscending.
  induction l as [| x l IH]; intros revPrefix Hs Hall; simpl;
    [now rewrite app_nil_r |].
  inversion Hs as [| ? ? Hs' Hx]; subst.
  inversion Hall as [| ? ? Hxp Hall']; subst.
  rewrite sink_id_desc by exact Hxp. simpl.
  rewrite IH; [now rewrite <- app_assoc | exact Hs' |].
  rewrite Forall_map in Hx.
  apply Forall_forall. intros z Hz. apply Forall_app. split.
  - rewrite Forall_forall in Hall'. now apply Hall'.
  - repeat constructor. rewrite Forall_forall in Hx. now apply Hx.
Qed.

Lemma filter_keysAscending p st :
  keysAscending st -> keysAscending (filter p st).
Proof.
  unfold keysAscending. induction st as [| x st IH]; intros Hs; simpl;
    [constructor |].
  inversion Hs as [| ? ? Hs' Hx]; subst.
  destruct (p x); [| now apply IH].
  simpl. constructor; [now apply IH |].
  rewrite Forall_map in *. rewrite Forall_forall in *.
  intros y Hy. apply Hx. now apply filter_In in Hy.
Qed.

(** X17.  With a search term and [sortBy = id], the page is read off the matching
    records in key order: ascending, it is the slice of the matches as the
    cursor yields them; descending, the slice of the same list reversed. *)
Theorem search_by_id (st : store) (now off lim : Z) (term : string) :
  keysAscending st -> falsy term = false ->
  getCustomers st now (Query off lim term SortId Asc) =
  Some (Result
          (Js.slice (filter (matches term (Js.toLowerCase term)) st)
             off (off + lim))
          (Js.len (filter (matches term (Js.toLowerCase term)) st))
          (off + lim <? Js.len (filter (matches term (Js.toLowerCase term)) st))) /\
  getCustomers st now (Query off lim term SortId Desc) =
  Some (Result
          (Js.slice (rev (filter (matches term (Js.toLowerCase term)) st))
             off (off + lim))
          (Js.len (filter (matches term (Js.toLowerCase term)) st))
          (off + lim <? Js.len (filter (matches term (Js.toLowerCase term)) st))).
Proof.
  intros Hs Hf.
  pose proof (filter_keysAscending (matches term (Js.toLowerCase term)) st Hs)
    as Hfound.
  set (found := filter (matches term (Js.toLowerCase term)) st) in *.
  assert (Hnil : Forall (fun x : customer => Forall (fun y => id y < id x) []) found)
    by (apply Forall_forall; intros; constructor).
  unfold getCustomers. cbn [search sortBy sortOrder offset limit].
  rewrite Hf, scanSearch_spec. cbn [app]. fold found.
  unfold array_sort.
  rewrite (sort_loop_id_asc found [] Hfound Hnil).
  rewrite (sort_loop_id_desc found [] Hfound Hnil).
  cbn [bind ret app]. rewrite app_nil_r, rev_involutive.
  split; [reflexivity |].
  unfold Js.len. now rewrite length_rev.
Qed.

Lemma search_by_id_witness :
  getCustomers (generateCustomers 0 5) 0 (Query 0 10 "mary" SortId Asc) =
  Some (Result
          (Js.slice (filter (matches "mary" (Js.toLowerCase "mary"))
                       (generateCustomers 0 5)) 0 (0 + 10))
          (Js.len (filter (matches "mary" (Js.toLowerCase "mary"))
                     (generateCustomers 0 5)))
          (0 + 10 <? Js.len (filter (matches "mary" (Js.toLowerCase "mary"))
                               (generateCustomers 0 5)))).
Proof.
  apply (search_by_id (generateCustomers 0 5) 0 0 10 "mary");
    [repeat constructor | reflexivity].
Defined.

(** *** The query engine: a longer term narrows the search *)

Lemma allChars_app_inv P a b :
  allChars P (a ++ b)%string = true ->
  allChars P a = true /\ allChars P b = true.
Proof.
  induction a as [| x a IH]; simpl; [now split |].
  intros H. apply andb_true_iff in H as [Hx H].
  destruct (IH H) as [Ha Hb]. now rewrite Hx, Ha.
Qed.

(** On ASCII text lowercasing acts character by character, so it distributes
    over concatenation.  Elsewhere the case mapping of the language may
    depend on the neighbours of a character; no use is made of it there. *)
Lemma toLowerCase_app_ascii a b :
  allChars isAscii (a ++ b)%string = true ->
  Js.toLowerCase (a ++ b) = (Js.toLowerCase a ++ Js.toLowerCase b)%string.
Proof.
  intros _. induction a as [| x a IH]; simpl; [reflexivity | now rewrite IH].
Qed.

Lemma includes_trans s t' t :
  Js.includes s t' = true -> Js.includes t' t = true -> Js.includes s t = true.
Proof.
  rewrite !includes_iff. intros (a & b & ->) (a' & b' & ->).
  exists (a ++ a')%string, (b' ++ b)%string.
  now rewrite !string_app_assoc.
Qed.

Lemma includes_toLowerCase t' t :
  allChars isAscii t' = true ->
  Js.includes t' t = true ->
  Js.includes (Js.toLowerCase t') (Js.toLowerCase t) = true.
Proof.
  rewrite !includes_iff. intros Hascii (a & b & ->).
  exists (Js.toLowerCase a), (Js.toLowerCase b).
  rewrite (toLowerCase_app_ascii a) by exact Hascii.
  apply allChars_app_inv in Hascii as [_ Hascii].
  now rewrite (toLowerCase_app_ascii t) by exact Hascii.
Qed.

Lemma matches_narrow t' t c :
  allChars isAscii t' = true ->
  Js.includes t' t = true ->
  matches t' (Js.toLowerCase t') c = true ->
  matches t (Js.toLowerCase t) c = true.
Proof.
  intros Hascii Hsub.
  pose proof (includes_toLowerCase t' t Hascii Hsub) as Hlow.
  unfold matches. rewrite !orb_true_iff.
  intros [[H | H] | H]; [left; left | left; right | right];
    eapply includes_trans; eassumption.
Qed.

Lemma filter_length_impl {A : Type} (p p' : A -> bool) l :
  (forall x, p' x = true -> p x = true) ->
  (List.length (filter p' l) <= List.length (filter p l))%nat.
Proof.
  intros Himp. induction l as [| x l IH]; simpl; [lia |].
  destruct (p' x) eqn:E'.
  - rewrite (Himp x E'). simpl. lia.
  - destruct (p x); simpl; lia.
Qed.

(** X18.  A search term of ASCII characters that contains another one finds a
    part of what the other finds: every record that matches the longer term
    matches the shorter one, so typing more characters never adds results
    and the total never grows.  (On ASCII text lowercasing acts character by
    character, so the lowercased longer term contains the lowercased shorter
    one; the records themselves are arbitrary.) *)
Theorem search_narrows (st : store) (now : Z) (q : query) (longer : string) :
  falsy (search q) = false ->
  allChars isAscii longer = true ->
  Js.includes longer (search q) = true ->
  (forall c,
     matches longer (Js.toLowerCase longer) c = true ->
     matches (search q) (Js.toLowerCase (search q)) c = true) /\
  exists r r',
    getCustomers st now q = Some r /\
    getCustomers st now (withSearch q longer) = Some r' /\
    total r' <= total r.
Proof.
  intros Hf Hascii Hsub.
  assert (Hf' : falsy longer = false).
  { destruct longer; [| reflexivity].
    apply includes_iff in Hsub as (a & b & E).
    destruct a; [| discriminate E]. simpl in E.
    destruct (search q); [discriminate Hf | discriminate E]. }
  split; [intros c; now apply matches_narrow |].
  destruct (getCustomers_search st now q Hf) as (sorted & Hget & Hp & _).
  destruct (getCustomers_search st now (withSearch q longer) Hf')
    as (sorted' & Hget' & Hp' & _).
  do 2 eexists. split; [exact Hget |]. split; [exact Hget' |].
  cbn [total]. unfold Js.len.
  rewrite <- (Permutation_length Hp), <- (Permutation_length Hp').
  apply Nat2Z.inj_le, filter_length_impl.
  intros c. now apply matches_narrow.
Qed.

Lemma search_narrows_witness :
  exists r r',
    getCustomers (generateCustomers 0 70) 0 (Query 0 30 "son" SortId Asc) = Some r /\
    getCustomers (generateCustomers 0 70) 0
      (withSearch (Query 0 30 "son" SortId Asc) "johnson") = Some r' /\
    total r' <= total r.
Proof.
  apply (search_narrows (generateCustomers 0 70) 0
           (Query 0 30 "son" SortId Asc) "johnson");
    reflexivity.
Defined.

(** *** Navigation: loading, wheel and keyboard *)

Section NavigationFacts.
Import CustomerTable.
Import CustomerTableView.

Lemma load_scrollPercentage st now s o :
  scrollPercentage (loadCustomersAtOffset st now s o) = scrollPercentage s.
Proof.
  unfold loadCustomersAtOffset.
  now destruct (getCustomers st now
                  (Query o ITEMS_PER_PAGE (searchTerm s) (sortBy s) (sortOrder s))).
Qed.

(** The page of [ITEMS_PER_PAGE] window cells at offset [o]. *)
Lemma load_noSearch_id st now s o :
  searchTerm s = ""%string -> sortBy s = SortId -> 0 <= o ->
  loadCustomersAtOffset st now s o =
  State
    (dropNull (map (windowCell st now)
                 (Js.zrange o (Z.min (o + ITEMS_PER_PAGE) VIRTUAL_TOTAL))))
    false ""%string SortId (sortOrder s) VIRTUAL_TOTAL (o + 1)
    (scrollPercentage s).
Proof.
  intros Hterm Hsort Ho. unfold loadCustomersAtOffset.
  rewrite Hterm, Hsort.
  rewrite (getCustomers_noSearch_id st now
             (Query o ITEMS_PER_PAGE "" SortId (sortOrder s)))
    by (reflexivity || assumption).
  reflexivity.
Qed.

Lemma handleWheel_noSearch_id st now s deltaY :
  searchTerm s = ""%string -> sortBy s = SortId ->
  handleWheel st now s deltaY =
  State
    (dropNull (map (windowCell st now)
       (Js.zrange (wheelOffset (totalCount s) (currentRow s) deltaY)
          (Z.min (wheelOffset (totalCount s) (currentRow s) deltaY + ITEMS_PER_PAGE)
             VIRTUAL_TOTAL))))
    false ""%string SortId (sortOrder s) VIRTUAL_TOTAL
    (wheelOffset (totalCount s) (currentRow s) deltaY + 1)
    (js_div (wheelOffset (totalCount s) (currentRow s) deltaY) (totalCount s)).
Proof.
  intros Hterm Hsort. unfold handleWheel.
  rewrite load_noSearch_id; [reflexivity | exact Hterm | exact Hsort |].
  unfold wheelOffset. lia.
Qed.

Lemma handleKeyDown_noSearch_id st now s e o :
  searchTerm s = ""%string -> sortBy s = SortId ->
  keyOffset (totalCount s) (currentRow s) e = Some o -> 0 <= o ->
  handleKeyDown st now s e =
  State
    (dropNull (map (windowCell st now)
       (Js.zrange o (Z.min (o + ITEMS_PER_PAGE) VIRTUAL_TOTAL))))
    false ""%string SortId (sortOrder s) VIRTUAL_TOTAL (o + 1)
    (js_div o (totalCount s)).
Proof.
  intros Hterm Hsort Hkey Ho. unfold handleKeyDown. rewrite Hkey.
  now rewrite load_noSearch_id.
Qed.

(** X19.  Scrolling one wheel step down and one step up again, away from the two
    ends, shows the page one started from: the same current row and the same
    records as a load at that row. *)
Theorem wheel_down_up (st : store) (now : Z) (s : state) (down up : Q) :
  searchTerm s = ""%string -> sortBy s = SortId ->
  totalCount s = VIRTUAL_TOTAL ->
  1 <= currentRow s -> currentRow s + 2 * ITEMS_PER_PAGE - 1 <= VIRTUAL_TOTAL ->
  (0 < down)%Q -> (up <= 0)%Q ->
  currentRow (handleWheel st now (handleWheel st now s down) up) = currentRow s /\
  customers (handleWheel st now (handleWheel st now s down) up) =
  customers (loadCustomersAtOffset st now s (currentRow s - 1)).
Proof.
  intros Hterm Hsort Htotal Hlo Hhi Hdown Hup.
  assert (Ed : Qle_bool down 0 = false).
  { destruct (Qle_bool down 0) eqn:E; [| reflexivity].
    apply Qle_bool_iff in E. exfalso. apply (Qlt_not_le _ _ Hdown E). }
  assert (Eu : Qle_bool up 0 = true) by now apply Qle_bool_iff.
  assert (O1 : wheelOffset (totalCount s) (currentRow s) down = currentRow s + 29).
  { unfold wheelOffset. rewrite Ed, Htotal. cbn [negb].
    unfold ITEMS_PER_PAGE, VIRTUAL_TOTAL in *. lia. }
  assert (O2 : wheelOffset VIRTUAL_TOTAL (currentRow s + 29 + 1) up = currentRow s - 1).
  { unfold wheelOffset. rewrite Eu. cbn [negb].
    unfold ITEMS_PER_PAGE, VIRTUAL_TOTAL in *. lia. }
  rewrite (handleWheel_noSearch_id st now s down Hterm Hsort), O1.
  rewrite handleWheel_noSearch_id by reflexivity.
  cbn [totalCount currentRow]. rewrite O2.
  rewrite load_noSearch_id by (assumption || lia).
  cbn [currentRow customers]. split; [lia | reflexivity].
Qed.

(** X20.  Arrow-down followed by arrow-up, and page-down followed by page-up, away
    from the two ends, come back to the row and the page one started from. *)
Theorem key_down_up (st : store) (now : Z) (s : state) :
  searchTerm s = ""%string -> sortBy s = SortId ->
  totalCount s = VIRTUAL_TOTAL ->
  1 <= currentRow s -> currentRow s + 2 * ITEMS_PER_PAGE - 1 <= VIRTUAL_TOTAL ->
  handleKeyDown st now
    (handleKeyDown st now s (KeyEvent false ArrowDown)) (KeyEvent false ArrowUp)
  = setScrollPercentage (loadCustomersAtOffset st now s (currentRow s - 1))
      (js_div (currentRow s - 1) VIRTUAL_TOTAL) /\
  handleKeyDown st now
    (handleKeyDown st now s (KeyEvent false PageDown)) (KeyEvent false PageUp)
  = setScrollPercentage (loadCustomersAtOffset st now s (currentRow s - 1))
      (js_div (currentRow s - 1) VIRTUAL_TOTAL).
Proof.
  intros Hterm Hsort Htotal Hlo Hhi.
  assert (Hback : forall step,
    1 <= step <= ITEMS_PER_PAGE ->
    forall e1 e2,
    keyOffset (totalCount s) (currentRow s) e1 = Some (currentRow s - 1 + step) ->
    keyOffset VIRTUAL_TOTAL (currentRow s - 1 + step + 1) e2
      = Some (currentRow s - 1) ->
    handleKeyDown st now (handleKeyDown st now s e1) e2
    = setScrollPercentage (loadCustomersAtOffset st now s (currentRow s - 1))
        (js_div (currentRow s - 1) VIRTUAL_TOTAL)).
  { intros step Hstep e1 e2 K1 K2.
    rewrite (handleKeyDown_noSearch_id st now s e1 _ Hterm Hsort K1) by lia.
    rewrite (handleKeyDown_noSearch_id st now _ e2 (currentRow s - 1))
      by (reflexivity || exact K2 || lia).
    rewrite load_noSearch_id by (assumption || lia).
    reflexivity. }
  unfold ITEMS_PER_PAGE, VIRTUAL_TOTAL in *.
  split.
  - apply (Hback 1); [lia | |]; unfold keyOffset; cbn [targetIsInput pressed];
      unfold ITEMS_PER_PAGE; rewrite ?Htotal; f_equal; lia.
  - apply (Hback 30); [lia | |]; unfold keyOffset; cbn [targetIsInput pressed];
      unfold ITEMS_PER_PAGE; rewrite ?Htotal; f_equal; lia.
Qed.

End NavigationFacts.

Lemma wheel_down_up_witness :
  CustomerTable.currentRow
    (CustomerTable.handleWheel [] 0
       (CustomerTable.handleWheel [] 0 CustomerTable.initialState 1) (-1))
  = CustomerTable.currentRow CustomerTable.initialState.
Proof.
  apply (wheel_down_up [] 0 CustomerTable.initialState 1 (-1)); try reflexivity;
    simpl; unfold CustomerTable.ITEMS_PER_PAGE, VIRTUAL_TOTAL; try lia; discriminate.
Defined.

Lemma key_down_up_witness :
  CustomerTable.handleKeyDown [] 0
    (CustomerTable.handleKeyDown [] 0 CustomerTable.initialState
       (CustomerTable.KeyEvent false CustomerTable.PageDown))
    (CustomerTable.KeyEvent false CustomerTable.PageUp)
  = CustomerTable.setScrollPercentage
      (CustomerTable.loadCustomersAtOffset [] 0 CustomerTable.initialState 0)
      (CustomerTable.js_div 0 VIRTUAL_TOTAL).
Proof.
  apply (proj2 (key_down_up [] 0 CustomerTable.initialState eq_refl eq_refl eq_refl
                  ltac:(simpl; lia)
                  ltac:(simpl; unfold CustomerTable.ITEMS_PER_PAGE, VIRTUAL_TOTAL; lia))).
Defined.

(** *** Navigation: offsets at the edges *)

Section NavigationEdges.
Import CustomerTable.
Import CustomerTableView.

(** X21.  When fewer rows than a page exist (a search with few matches), the
    scrollbar and the wheel stay at offset 0, but arrow-down, page-down and
    End compute the negative offset [total - ITEMS_PER_PAGE]. *)
Theorem offsets_below_one_page (total currentRow : Z) :
  total < ITEMS_PER_PAGE -> 1 <= currentRow ->
  (forall percentage, scrollbarOffset total percentage = 0) /\
  (forall deltaY, wheelOffset total currentRow deltaY = 0) /\
  keyOffset total currentRow (KeyEvent false ArrowDown)
    = Some (total - ITEMS_PER_PAGE) /\
  keyOffset total currentRow (KeyEvent false PageDown)
    = Some (total - ITEMS_PER_PAGE) /\
  keyOffset total currentRow (KeyEvent false End_)
    = Some (total - ITEMS_PER_PAGE) /\
  total - ITEMS_PER_PAGE < 0.
Proof.
  intros Ht Hrow. unfold scrollbarOffset, wheelOffset, keyOffset.
  cbn [targetIsInput pressed]. unfold ITEMS_PER_PAGE in *.
  repeat split; intros; try (f_equal; lia); lia.
Qed.

Lemma offsets_below_one_page_witness :
  keyOffset 5 1 (KeyEvent false ArrowDown) = Some (5 - ITEMS_PER_PAGE) /\
  wheelOffset 5 1 1 = 0.
Proof.
  destruct (offsets_below_one_page 5 1) as (_ & Hw & Hk & _);
    [unfold ITEMS_PER_PAGE; lia | lia |].
  split; [exact Hk | apply Hw].
Defined.

(** X22.  The scrollbar mapping is monotone in the pointer ratio, maps ratio 0 to
    the first row and, when a full page exists, ratio 1 to the last full
    page. *)
Theorem scrollbarOffset_monotone (total : Z) (p q : Q) :
  0 <= total -> (p <= q)%Q ->
  scrollbarOffset total p <= scrollbarOffset total q /\
  scrollbarOffset total 0 = 0 /\
  (ITEMS_PER_PAGE <= total -> scrollbarOffset total 1 = total - ITEMS_PER_PAGE).
Proof.
  intros Ht Hpq. unfold scrollbarOffset. split; [| split].
  - assert (Qfloor (p * inject_Z total) <= Qfloor (q * inject_Z total)).
    { apply Qfloor_resp_le. apply Qmult_le_compat_r; [exact Hpq |].
      change 0%Q with (inject_Z 0). now rewrite <- Zle_Qle. }
    lia.
  - assert (E : Qfloor (0 * inject_Z total) = 0)
      by (rewrite Qmult_0_l; reflexivity).
    rewrite E. unfold ITEMS_PER_PAGE. lia.
  - intros Hfull.
    assert (E : Qfloor (1 * inject_Z total) = total)
      by (rewrite Qmult_1_l; apply Qfloor_Z).
    rewrite E. unfold ITEMS_PER_PAGE in *. lia.
Qed.

Lemma scrollbarOffset_monotone_witness :
  scrollbarOffset 1000000 (1 # 4) <= scrollbarOffset 1000000 (1 # 2).
Proof.
  apply (scrollbarOffset_monotone 1000000 (1 # 4) (1 # 2)); [lia |].
  unfold Qle. simpl. lia.
Defined.

Lemma js_div_fraction o total :
  0 <= o -> o < total ->
  exists q, js_div o total = Num q /\ (0 <= q)%Q /\ (q < 1)%Q.
Proof.
  intros Ho Hlt. unfold js_div.
  destruct (Z.eqb_spec total 0); [lia |].
  exists (inject_Z o / inject_Z total)%Q. split; [reflexivity |].
  assert (Hpos : (0 < inject_Z total)%Q)
    by (change 0%Q with (inject_Z 0); rewrite <- Zlt_Qlt; lia).
  split.
  - apply Qle_shift_div_l; [exact Hpos |]. rewrite Qmult_0_l.
    change 0%Q with (inject_Z 0). rewrite <- Zle_Qle. exact Ho.
  - apply Qlt_shift_div_r; [exact Hpos |]. rewrite Qmult_1_l.
    rewrite <- Zlt_Qlt. exact Hlt.
Qed.

(** X23.  After a wheel step the scroll position is a fraction in [[0, 1)] when at
    least a page of rows exists, so the thumb stays on the track; on an empty
    result ([totalCount = 0]) the step divides zero by zero and the scroll
    position becomes [NaN]. *)
Theorem handleWheel_scrollPercentage (st : store) (now : Z) (s : state)
  (deltaY : Q) :
  (ITEMS_PER_PAGE <= totalCount s ->
   exists q,
     scrollPercentage (handleWheel st now s deltaY) = Num q /\
     (0 <= q)%Q /\ (q < 1)%Q) /\
  (totalCount s = 0 -> scrollPercentage (handleWheel st now s deltaY) = NaN).
Proof.
  unfold handleWheel. rewrite load_scrollPercentage. cbn [scrollPercentage setScrollPercentage].
  split.
  - intros Hfull. apply js_div_fraction; unfold wheelOffset, ITEMS_PER_PAGE in *; lia.
  - intros ->. unfold wheelOffset, ITEMS_PER_PAGE.
    replace (Z.max 0 _) with 0 by lia. reflexivity.
Qed.

Lemma handleWheel_scrollPercentage_witness :
  exists q,
    scrollPercentage (handleWheel [] 0 initialState 1) = Num q /\
    (0 <= q)%Q /\ (q < 1)%Q.
Proof.
  apply (handleWheel_scrollPercentage [] 0 initialState 1).
  simpl. unfold ITEMS_PER_PAGE. lia.
Defined.

End NavigationEdges.

(** *** Navigation: what the table shows *)

Lemma covered_page_ids st now o :
  0 <= o -> densePrefix st ->
  (o < ACTUAL_STORED ->
   Z.min (Z.min (o + 30) VIRTUAL_TOTAL) ACTUAL_STORED <= Js.len st) ->
  map id (dropNull (map (windowCell st now)
                      (Js.zrange o (Z.min (o + 30) VIRTUAL_TOTAL)))) =
  Js.zrange (o + 1) (Z.min (o + 30) VIRTUAL_TOTAL + 1).
Proof.
  intros Ho Hd Hcov.
  rewrite window_covered, dropNull_Some by assumption.
  rewrite map_map, <- zrange_succ.
  apply map_ext_in. intros i Hi. apply zrange_In in Hi.
  apply windowRecord_id; [lia | assumption].
Qed.

Section TableFacts.
Import CustomerTable.
Import CustomerTableView.

Lemma handleJumpToRow_noSearch_id st now s row :
  searchTerm s = ""%string -> sortBy s = SortId ->
  1 <= row <= totalCount s ->
  handleJumpToRow st now s (Some row) =
  State
    (dropNull (map (windowCell st now)
       (Js.zrange (row - 1) (Z.min (row - 1 + ITEMS_PER_PAGE) VIRTUAL_TOTAL))))
    false ""%string SortId (sortOrder s) VIRTUAL_TOTAL (row - 1 + 1)
    (js_div (row - 1) (totalCount s)).
Proof.
  intros Hterm Hsort Hrow. unfold handleJumpToRow, jumpOffset.
  destruct (Z.leb_spec 1 row); [| lia].
  destruct (Z.leb_spec row (totalCount s)); [| lia].
  cbn [andb]. replace (Z.max 0 (row - 1)) with (row - 1) by lia.
  now rewrite load_noSearch_id by (assumption || lia).
Qed.

(** X24.  Jumping to a row of the unfiltered table, on a store that covers the
    window and holds the ids [1 .. n] without gap, shows exactly the rows
    [row, row+1, ...], thirty of them or as many as remain up to the last
    row, and makes [row] the current row. *)
Theorem jump_shows_rows (st : store) (now : Z) (s : state) (row : Z) :
  searchTerm s = ""%string -> sortBy s = SortId ->
  totalCount s = VIRTUAL_TOTAL -> 1 <= row <= VIRTUAL_TOTAL ->
  densePrefix st ->
  (row - 1 < ACTUAL_STORED ->
   Z.min (Z.min (row - 1 + 30) VIRTUAL_TOTAL) ACTUAL_STORED <= Js.len st) ->
  currentRow (handleJumpToRow st now s (Some row)) = row /\
  loading (handleJumpToRow st now s (Some row)) = false /\
  totalCount (handleJumpToRow st now s (Some row)) = VIRTUAL_TOTAL /\
  map id (customers (handleJumpToRow st now s (Some row))) =
  Js.zrange row (Z.min (row + 29) VIRTUAL_TOTAL + 1).
Proof.
  intros Hterm Hsort Htotal Hrow Hd Hcov.
  rewrite handleJumpToRow_noSearch_id by (assumption || lia).
  cbn [currentRow loading totalCount customers]. unfold ITEMS_PER_PAGE.
  rewrite covered_page_ids by (assumption || lia).
  repeat split; try lia. f_equal; lia.
Qed.

Lemma jump_shows_rows_witness :
  map id (customers
            (handleJumpToRow (generateCustomers 0 3) 0 initialState (Some 999990))) =
  Js.zrange 999990 (Z.min (999990 + 29) VIRTUAL_TOTAL + 1).
Proof.
  apply (jump_shows_rows (generateCustomers 0 3) 0 initialState 999990);
    try reflexivity; try apply generateCustomers_dense;
    unfold VIRTUAL_TOTAL, ACTUAL_STORED; lia.
Defined.

(** X25.  After such a jump the counter reads "[row]-[last] of [total]" where
    [last] is the id of the last row shown: the counter and the rows agree. *)
Theorem getPaginationText_after_jump (toLocaleString : Z -> string)
  (st : store) (now : Z) (s : state) (row : Z) :
  searchTerm s = ""%string -> sortBy s = SortId ->
  totalCount s = VIRTUAL_TOTAL -> 1 <= row <= VIRTUAL_TOTAL ->
  densePrefix st ->
  (row - 1 < ACTUAL_STORED ->
   Z.min (Z.min (row - 1 + 30) VIRTUAL_TOTAL) ACTUAL_STORED <= Js.len st) ->
  getPaginationText toLocaleString (handleJumpToRow st now s (Some row)) =
  (toLocaleString row ++ "-"
     ++ toLocaleString (Z.min (row + 29) VIRTUAL_TOTAL) ++ " of "
     ++ toLocaleString VIRTUAL_TOTAL)%string /\
  last (map id (customers (handleJumpToRow st now s (Some row)))) 0
  = Z.min (row + 29) VIRTUAL_TOTAL.
Proof.
  intros Hterm Hsort Htotal Hrow Hd Hcov.
  rewrite handleJumpToRow_noSearch_id by (assumption || lia).
  unfold getPaginationText. cbn [currentRow totalCount customers].
  unfold ITEMS_PER_PAGE.
  assert (Hids := covered_page_ids st now (row - 1) ltac:(lia) Hd Hcov).
  assert (Hlen : Js.len (dropNull (map (windowCell st now)
                   (Js.zrange (row - 1) (Z.min (row - 1 + 30) VIRTUAL_TOTAL))))
                 = Z.min (row - 1 + 30) VIRTUAL_TOTAL - (row - 1)).
  { unfold Js.len. rewrite <- (length_map id), Hids, zrange_length. lia. }
  rewrite Hlen, Hids. split.
  - do 3 f_equal; [lia |]. f_equal. lia.
  - set (e := Z.min (row - 1 + 30) VIRTUAL_TOTAL).
    replace (Js.zrange (row - 1 + 1) (e + 1))
      with (Js.zrange (row - 1 + 1) e ++ Js.zrange e (e + 1))
      by (apply zrange_app; subst e; lia).
    rewrite (zrange_cons e) by lia. rewrite (zrange_empty (e + 1)) by lia.
    rewrite last_last. subst e. lia.
Qed.

Lemma getPaginationText_after_jump_witness :
  getPaginationText Js.String_of
    (handleJumpToRow (generateCustomers 0 3) 0 initialState (Some 999990)) =
  (Js.String_of 999990 ++ "-"
     ++ Js.String_of (Z.min (999990 + 29) VIRTUAL_TOTAL) ++ " of "
     ++ Js.String_of VIRTUAL_TOTAL)%string.
Proof.
  apply (getPaginationText_after_jump Js.String_of
           (generateCustomers 0 3) 0 initialState 999990);
    try reflexivity; try apply generateCustomers_dense;
    unfold VIRTUAL_TOTAL, ACTUAL_STORED; lia.
Defined.

(** X26.  A search that matches nothing shows no row and the counter
    "1-0 of 0": the end of the range falls below its start. *)
Theorem getPaginationText_no_match (toLocaleString : Z -> string)
  (st : store) (now : Z) (s : state) :
  falsy (searchTerm s) = false ->
  filter (matches (searchTerm s) (Js.toLowerCase (searchTerm s))) st = [] ->
  customers (loadCustomersAtOffset st now s 0) = [] /\
  getPaginationText toLocaleString (loadCustomersAtOffset st now s 0) =
  (toLocaleString 1 ++ "-" ++ toLocaleString 0 ++ " of " ++ toLocaleString 0)%string.
Proof.
  intros Hf Hnone. unfold loadCustomersAtOffset.
  destruct (getCustomers_search st now
              (Query 0 ITEMS_PER_PAGE (searchTerm s) (sortBy s) (sortOrder s)) Hf)
    as (sorted & Hget & Hp & _).
  cbn [search] in Hp. rewrite Hnone in Hp.
  apply Permutation_nil in Hp. subst sorted.
  rewrite Hget. split; reflexivity.
Qed.

Lemma getPaginationText_no_match_witness :
  customers
    (loadCustomersAtOffset (generateCustomers 0 5) 0
       (State [] false "zzz" SortId Asc 1000000 1 (Num 0)) 0) = [].
Proof.
  apply (getPaginationText_no_match Js.String_of (generateCustomers 0 5) 0
           (State [] false "zzz" SortId Asc 1000000 1 (Num 0)));
    reflexivity.
Defined.

Lemma sameColumn_eq a b : sameColumn a b = true -> a = b.
Proof. destruct a, b; simpl; congruence. Qed.

Lemma sameColumn_refl a : sameColumn a a = true.
Proof. now destruct a. Qed.

(** X27.  A click on a column header of the unfiltered table, on a store that
    covers the first page and holds the ids [1 .. n] without gap, returns to
    row 1 and shows the records with the ids 1 .. 30 reordered by that
    column ([orderedBy]: the column's values non-decreasing, or
    non-increasing when the direction is [desc]): the sort rearranges the
    first page, it does not fetch the records that come first in the whole
    table.  A second click on the same
    column reverses the direction; another column starts ascending. *)
Theorem clickColumn_sorts_first_page (st : store) (now : Z) (s : state)
  (column : sortField) :
  searchTerm s = ""%string -> densePrefix st -> 30 <= Js.len st ->
  sortBy (clickColumn st now s column) = column /\
  sortOrder (clickColumn st now s column) =
    (if sameColumn (sortBy s) column
     then match sortOrder s with Asc => Desc | Desc => Asc end
     else Asc) /\
  currentRow (clickColumn st now s column) = 1 /\
  Permutation (Js.zrange 1 31) (map id (customers (clickColumn st now s column))) /\
  (column <> SortId ->
   StronglySorted
     (orderedBy column (sortOrder (clickColumn st now s column)))
     (customers (clickColumn st now s column))).
Proof.
  intros Hterm Hd Hlen.
  assert (Hcol : sortBy (handleSort s column) = column).
  { cbn [handleSort sortBy].
    destruct (sameColumn (sortBy s) column) eqn:E; [| reflexivity].
    now apply sameColumn_eq. }
  assert (Hord : sortOrder (handleSort s column) =
                 (if sameColumn (sortBy s) column
                  then match sortOrder s with Asc => Desc | Desc => Asc end
                  else Asc)) by reflexivity.
  assert (Hterm1 : searchTerm (handleSort s column) = ""%string) by exact Hterm.
  unfold clickColumn, loadCustomersAtOffset.
  remember (handleSort s column) as s1 eqn:Es1. clear Es1.
  rewrite Hterm1, Hcol.
  set (q := Query 0 ITEMS_PER_PAGE "" column (sortOrder s1)).
  assert (Hf : falsy (search q) = true) by reflexivity.
  assert (Ho : 0 <= offset q) by (cbn; lia).
  destruct (getCustomers_noSearch_returns st now q Hf Ho) as (r & Hr).
  { intros _. unfold windowEnd. cbn [offset limit q].
    unfold ITEMS_PER_PAGE, VIRTUAL_TOTAL, ACTUAL_STORED. lia. }
  destruct (getCustomers_noSearch st now q r Hf Ho Hr) as (_ & _ & Hp & Hsd).
  rewrite Hr. cbn [sortBy sortOrder currentRow customers].
  split; [reflexivity |]. split; [exact Hord |]. split; [reflexivity |]. split.
  - rewrite <- Hp. unfold windowEnd. cbn [offset limit q]. unfold ITEMS_PER_PAGE.
    rewrite covered_page_ids;
      [apply Permutation_refl | lia | assumption
      | unfold VIRTUAL_TOTAL, ACTUAL_STORED; lia].
  - intros Hne. apply orderedBy_strongly. apply Hsd. exact Hne.
Qed.

Lemma clickColumn_sorts_first_page_witness :
  Permutation (Js.zrange 1 31)
    (map id (customers
               (clickColumn (generateCustomers 0 40) 0 initialState SortScore))).
Proof.
  apply (clickColumn_sorts_first_page (generateCustomers 0 40) 0 initialState
           SortScore);
    [reflexivity | apply generateCustomers_dense
    | rewrite generateCustomers_len; lia].
Defined.

End TableFacts.

(** *** Ingestion as a whole *)

Lemma zrange_keys lo hi : StronglySorted Z.lt (Js.zrange lo hi).
Proof.
  remember (Z.to_nat (hi - lo)) as n eqn:En. revert lo En.
  induction n as [| n IH]; intros lo En.
  - rewrite zrange_empty by lia. constructor.
  - rewrite zrange_cons by lia. constructor; [apply IH; lia |].
    apply Forall_forall. intros i Hi. apply zrange_In in Hi. lia.
Qed.

(** X28.  Generating [totalCount] records in batches and saving them into an empty
    store leaves the store with exactly the records [1 .. totalCount], in key
    order and without gap, whatever the batch size. *)
Theorem ingestion_result (now totalCount batchSize : Z) :
  1 <= batchSize ->
  saveCustomerBatches (generateCustomerBatches now totalCount batchSize) [] =
  generateCustomers now totalCount /\
  map id (saveCustomerBatches (generateCustomerBatches now totalCount batchSize) [])
    = Js.zrange 1 (totalCount + 1) /\
  keysAscending
    (saveCustomerBatches (generateCustomerBatches now totalCount batchSize) []) /\
  Js.len (saveCustomerBatches (generateCustomerBatches now totalCount batchSize) [])
    = Z.max 0 totalCount.
Proof.
  intros Hb. rewrite ingestion_generateCustomers by exact Hb.
  assert (Hids : map id (generateCustomers now totalCount)
                 = Js.zrange 1 (totalCount + 1)).
  { unfold generateCustomers. rewrite map_map. cbn [generateCustomer id].
    apply map_id. }
  split; [reflexivity |]. split; [exact Hids |]. split.
  - unfold keysAscending. rewrite Hids. apply zrange_keys.
  - apply generateCustomers_len.
Qed.

Lemma ingestion_result_witness :
  saveCustomerBatches (generateCustomerBatches 0 10000 1000) [] =
  generateCustomers 0 10000.
Proof. apply (ingestion_result 0 10000 1000). lia. Defined.

(** *** Emails across the logical dataset *)

Lemma generateVirtualCustomer_email_digits now n :
  0 < n -> embeddedDigits (email (generateVirtualCustomer now n)) = Js.String_of n.
Proof.
  intros Hn. destruct (String_of_positive n Hn) as [Hd Hne].
  cbn [generateVirtualCustomer email].
  rewrite embeddedDigits_skip by (apply index_digit_free; reflexivity).
  cbn [append embeddedDigits]. change (Js.is_digit ".") with false. cbn iota.
  rewrite embeddedDigits_skip by (apply index_digit_free; reflexivity).
  cbn [append]. now apply embeddedDigits_run.
Qed.

(** X29.  Across the whole logical dataset, persisted or synthesized, two records
    with different positive ids never share an email address. *)
Theorem logical_emails_distinct (now1 now2 n m : Z) :
  0 < n -> 0 < m -> n <> m ->
  email (generateVirtualCustomer now1 n) <> email (generateVirtualCustomer now2 m) /\
  email (generateVirtualCustomer now1 n) <> email (generateCustomer now2 m) /\
  email (generateCustomer now1 n) <> email (generateVirtualCustomer now2 m).
Proof.
  intros Hn Hm Hne.
  pose proof (generateVirtualCustomer_email_digits now1 n Hn) as Vn.
  pose proof (generateVirtualCustomer_email_digits now2 m Hm) as Vm.
  pose proof (generateCustomer_email_digits now1 n Hn) as Gn.
  pose proof (generateCustomer_email_digits now2 m Hm) as Gm.
  repeat split; intros Heq; apply Hne, String_of_inj; congruence.
Qed.

Lemma logical_emails_distinct_witness :
  email (generateVirtualCustomer 0 10008) <> email (generateCustomer 0 8).
Proof. apply (logical_emails_distinct 0 0 10008 8); lia. Defined.

(** *** Searching for a phone number *)

Lemma string_length_app (a b : string) :
  String.length (a ++ b) = (String.length a + String.length b)%nat.
Proof. induction a as [| x a IH]; simpl; [| rewrite IH]; reflexivity. Qed.

Lemma string_app_nil (a : string) : (a ++ "")%string = a.
Proof. induction a as [| x a IH]; simpl; [| rewrite IH]; reflexivity. Qed.

Lemma includes_refl s : Js.includes s s = true.
Proof.
  apply includes_iff. exists ""%string, ""%string.
  simpl. now rewrite string_app_nil.
Qed.

Lemma includes_same_length s t :
  Js.includes s t = true -> String.length s = String.length t -> s = t.
Proof.
  intros Hi Hlen. apply includes_iff in Hi as (a & b & ->).
  rewrite !string_length_app in Hlen.
  destruct a; [| simpl in Hlen; lia].
  destruct b; [| simpl in Hlen; lia].
  simpl. now rewrite string_app_nil.
Qed.

Lemma lower_char_notPlus c : notPlus c = true -> notPlus (Js.lower_char c) = true.
Proof. destruct c as [[] [] [] [] [] [] [] []]; vm_compute; congruence. Qed.

Lemma toLowerCase_notPlus s :
  allChars notPlus s = true -> allChars notPlus (Js.toLowerCase s) = true.
Proof.
  induction s as [| c s IH]; simpl; [reflexivity |].
  intros H. apply andb_true_iff in H as [Hc Hs].
  now rewrite (lower_char_notPlus c Hc), IH.
Qed.

Lemma index_all P table i :
  forallb (allChars P) table = true -> allChars P "undefined" = true ->
  allChars P (Js.index table i) = true.
Proof.
  intros Ht Hu. unfold Js.index.
  destruct (i <? 0); [exact Hu |].
  destruct (nth_in_or_default (Z.to_nat i) table "undefined"%string) as [Hin | ->];
    [| exact Hu].
  rewrite forallb_forall in Ht. now apply Ht.
Qed.

Lemma digit_notPlus c : Js.is_digit c = true -> notPlus c = true.
Proof. destruct c as [[] [] [] [] [] [] [] []]; vm_compute; congruence. Qed.

(** Neither the name nor the email of a generated record holds a ['+']. *)
Lemma generateCustomer_no_plus now m :
  0 <= m ->
  allChars notPlus (Js.toLowerCase (name (generateCustomer now m))) = true /\
  allChars notPlus (Js.toLowerCase (email (generateCustomer now m))) = true.
Proof.
  intros Hm.
  assert (Hdig : allChars notPlus (Js.String_of m) = true).
  { apply (allChars_weaken Js.is_digit); [apply digit_notPlus |].
    now apply String_of_nonneg_digits. }
  split; apply toLowerCase_notPlus; cbn [generateCustomer name email];
    repeat (apply allChars_app);
    try exact Hdig;
    try (apply toLowerCase_notPlus);
    try (apply index_all; reflexivity);
    reflexivity.
Qed.

Lemma phone_decode k :
  0 <= k ->
  phoneId ("+1" ++ Js.padStart 10 "0" (Js.String_of k))%string = Some k.
Proof.
  intros Hk. destruct (String_of_numeral k Hk) as (d & -> & Hd).
  cbn [append phoneId]. unfold Js.padStart.
  rewrite uint_of_padded, NilEmpty.usu. simpl.
  now rewrite of_uint_leading_zeros, Hd.
Qed.

Lemma phone_length now m :
  0 <= m < 10 ^ 10 -> String.length (phone (generateCustomer now m)) = 12%nat.
Proof.
  intros Hm. pose proof (String_of_width m Hm).
  cbn [generateCustomer phone append String.length].
  rewrite padStart_length. lia.
Qed.

(** Searching for the phone of record [n] matches the record [m] exactly when
    [m = n]. *)
Lemma matches_phone now n m :
  0 <= n < 10 ^ 10 -> 0 <= m < 10 ^ 10 ->
  matches (phone (generateCustomer now n))
    (Js.toLowerCase (phone (generateCustomer now n))) (generateCustomer now m)
  = (m =? n).
Proof.
  intros Hn Hm.
  destruct (generateCustomer_no_plus now m (proj1 Hm)) as [Hname Hemail].
  assert (Hplus : allChars notPlus
                    (Js.toLowerCase (phone (generateCustomer now n))) = false)
    by reflexivity.
  unfold matches.
  destruct (Js.includes (Js.toLowerCase (name (generateCustomer now m))) _) eqn:E1.
  { apply (includes_allChars notPlus) in E1; [congruence | exact Hname]. }
  destruct (Js.includes (Js.toLowerCase (email (generateCustomer now m))) _) eqn:E2.
  { apply (includes_allChars notPlus) in E2; [congruence | exact Hemail]. }
  cbn [orb].
  destruct (Z.eqb_spec m n) as [-> | Hne]; [apply includes_refl |].
  destruct (Js.includes (phone (generateCustomer now m))
              (phone (generateCustomer now n))) eqn:E3; [| reflexivity].
  exfalso. apply Hne.
  apply includes_same_length in E3; [| now rewrite !phone_length].
  apply (f_equal phoneId) in E3. cbn [generateCustomer phone] in E3.
  rewrite !phone_decode in E3 by lia. congruence.
Qed.

Lemma filter_eqb_zrange n lo hi :
  lo <= n < hi -> filter (fun m => m =? n) (Js.zrange lo hi) = [n].
Proof.
  intros Hn.
  assert (Hnone : forall a b, (n < a \/ b <= n) ->
            filter (fun m => m =? n) (Js.zrange a b) = []).
  { intros a b Hab.
    assert (Hall : Forall (fun m => m <> n) (Js.zrange a b))
      by (apply Forall_forall; intros m Hin; apply zrange_In in Hin; lia).
    induction Hall as [| m l Hm _ IH]; simpl; [reflexivity |].
    destruct (Z.eqb_spec m n); [contradiction | exact IH]. }
  rewrite <- (zrange_app lo n hi) by lia.
  rewrite (zrange_cons n hi) by lia.
  rewrite filter_app. cbn [filter]. rewrite Z.eqb_refl.
  now rewrite !Hnone by lia.
Qed.

Lemma filter_map_commute {A B : Type} (f : A -> B) (p : B -> bool) l :
  filter p (map f l) = map f (filter (fun x => p (f x)) l).
Proof.
  induction l as [| x l IH]; simpl; [reflexivity |].
  destruct (p (f x)); simpl; now rewrite IH.
Qed.

(** X30.  On a store that holds the generated records [1 .. total], searching for
    the full phone number of one of them returns that record and no other:
    one row, [total = 1], nothing more to load. *)
Theorem search_by_phone_unique (now0 now total n lim : Z) (f : sortField)
  (o : sortDirection) :
  1 <= n <= total -> total < 10 ^ 10 -> 1 <= lim ->
  getCustomers (generateCustomers now0 total) now
    (Query 0 lim (phone (generateCustomer now0 n)) f o) =
  Some (Result [generateCustomer now0 n] 1 false).
Proof.
  intros Hn Ht Hlim.
  set (term := phone (generateCustomer now0 n)).
  assert (Hfound : filter (matches term (Js.toLowerCase term))
                     (generateCustomers now0 total) = [generateCustomer now0 n]).
  { unfold generateCustomers. rewrite filter_map_commute.
    rewrite (filter_ext_in _ (fun m => m =? n)).
    - now rewrite filter_eqb_zrange by lia.
    - intros m Hm. apply zrange_In in Hm. apply matches_phone; lia. }
  destruct (getCustomers_search (generateCustomers now0 total) now
              (Query 0 lim term f o)) as (sorted & Hget & Hp & _);
    [reflexivity |].
  cbn [search] in Hp. rewrite Hfound in Hp.
  apply Permutation_length_1_inv in Hp. subst sorted.
  rewrite Hget. cbn [offset limit]. rewrite slice_window by lia.
  replace (Z.to_nat lim) with (S (Z.to_nat (lim - 1))) by lia.
  cbn [Z.to_nat skipn firstn]. rewrite firstn_nil.
  change (Js.len [generateCustomer now0 n]) with 1.
  destruct (Z.ltb_spec (0 + lim) 1); [lia | reflexivity].
Qed.

Lemma search_by_phone_unique_witness :
  getCustomers (generateCustomers 0 50) 7
    (Query 0 30 (phone (generateCustomer 0 42)) SortName Desc) =
  Some (Result [generateCustomer 0 42] 1 false).
Proof.
  apply (search_by_phone_unique 0 7 50 42 30 SortName Desc); lia.
Defined.
